(** * Verification of package [azauth] (credential chain, retrying managed
    identity credential, credential materialisation)

  The development embeds [azauth/token.go] shallowly.  The Go packages the
  file imports ([strings], [errors], [context], [azcore]/[azidentity],
  [vault]) appear as modules of the same name that fix the part of their
  interface the code relies on.  Calls that leave the process (the managed
  identity endpoint, credential constructors reading the environment) act
  on an abstract world [W]; every such call is recorded in a ghost trace so
  that "is invoked", "exactly n times" and "in order" become statements
  about lists. *)

From Stdlib Require Import ZArith List String Ascii Bool Lia Permutation.
From Stdlib Require DecimalString DecimalNat.
Import ListNotations.
Local Open Scope string_scope.
Local Open Scope list_scope.
Local Open Scope Z_scope.
Local Set Warnings "-register-all".

(* ------------------------------------------------------------------ *)
(** ** Package [strings] *)

Module strings.

(** [strings.Contains(s, substr)]: [substr] occurs somewhere in [s]. *)
Fixpoint Contains (s substr : string) : bool :=
  String.prefix substr s ||
  match s with
  | EmptyString => false
  | String _ s' => Contains s' substr
  end.

End strings.

(* ------------------------------------------------------------------ *)
(** ** Package [errors] and the error types of [context] and [azidentity] *)

Module errors.

(** The dynamic types of the non-nil error values that flow through the
    package.  A Go [error] that may be nil is an [option Error]. *)
Inductive Error : Type :=
| New (msg : string)                          (* errors.New(msg) *)
| DeadlineExceeded                            (* context.DeadlineExceeded *)
| Canceled                                    (* context.Canceled *)
| AuthenticationFailedError (msg : string)    (* *azidentity.AuthenticationFailedError *)
| CredentialUnavailableError (msg : string)   (* azidentity.NewCredentialUnavailableError(msg) *)
| WithMessage (cause : Error) (msg : string)  (* errors.Wrap(cause, msg) *)
| JoinError (errs : list Error).              (* errors.Join(errs...) *)

Definition error : Type := option Error.

Definition newline : string := String (ascii_of_nat 10) EmptyString.

(** The method [Error() string]. *)
Fixpoint Error_ (e : Error) : string :=
  match e with
  | New msg => msg
  | DeadlineExceeded => "context deadline exceeded"
  | Canceled => "context canceled"
  | AuthenticationFailedError msg => msg
  | CredentialUnavailableError msg => msg
  | WithMessage cause msg => msg ++ ": " ++ Error_ cause
  | JoinError errs => String.concat newline (map Error_ errs)
  end.

(** [errors.As(err, &target)] for [target] of type
    [*azidentity.AuthenticationFailedError]: the chain of causes is walked,
    a joined error is explored depth first. *)
Fixpoint As_AuthenticationFailedError (e : Error) : bool :=
  match e with
  | AuthenticationFailedError _ => true
  | WithMessage cause _ => As_AuthenticationFailedError cause
  | JoinError errs => existsb As_AuthenticationFailedError errs
  | _ => false
  end.

(** [errors.Wrap(err, msg)]; nil stays nil. *)
Definition Wrap (err : error) (msg : string) : error :=
  match err with
  | None => None
  | Some e => Some (WithMessage e msg)
  end.

(** [errors.Join(errs...)]: nil when there is nothing to join.  The slice
    holds non-nil errors only, as at its one call site. *)
Definition Join (errs : list Error) : error :=
  match errs with
  | [] => None
  | _ :: _ => Some (JoinError errs)
  end.

End errors.
Import errors.

(* ------------------------------------------------------------------ *)
(** ** Package [context] *)

Module context.

(** What the code observes of a [context.Context]: its deadline (absolute
    time in nanoseconds, if any) and whether it is already done. *)
Record Context : Type := mkContext {
  Deadline : option Z;
  Err : error
}.

Definition Background : Context := {| Deadline := None; Err := None |}.

(** [context.WithDeadline(parent, d)] evaluated at time [now]: a parent
    whose deadline is sooner wins; a deadline that has already passed
    yields a context that is done with [DeadlineExceeded]. *)
Definition WithDeadline (now : Z) (parent : Context) (d : Z) : Context :=
  let derived :=
    {| Deadline := Some d;
       Err := match Err parent with
              | Some e => Some e
              | None => if d - now <=? 0 then Some DeadlineExceeded else None
              end |} in
  match Deadline parent with
  | Some cur => if cur <? d then parent else derived
  | None => derived
  end.

(** [context.WithTimeout(parent, timeout)]. *)
Definition WithTimeout (now : Z) (parent : Context) (timeout : Z) : Context :=
  WithDeadline now parent (now + timeout).

End context.
Import context.

(* ------------------------------------------------------------------ *)
(** ** Value types of [azcore] and [policy] *)

Module azcore.

Record AccessToken : Type := mkAccessToken {
  Token : string;
  ExpiresOn : Z
}.

(** The zero value [azcore.AccessToken{}]. *)
Definition AccessToken_zero : AccessToken :=
  {| Token := EmptyString; ExpiresOn := 0 |}.

Record TokenRequestOptions : Type := mkTokenRequestOptions {
  Scopes : list string
}.

End azcore.
Import azcore.

(* ------------------------------------------------------------------ *)
(** ** Package [vault] *)

Module vault.

(** Modelled from the spec: the enum [vault.CredentialType] is declared in
    package [vault], which is not part of the sources at hand.  The code
    names [CredentialType_pkcs12] and [CredentialType_password] and treats
    every other value alike; the spec lists the kinds certificate and
    password plus "any other kind value". *)
Inductive CredentialType : Type :=
| CredentialType_pkcs12
| CredentialType_password
| CredentialType_other (name : string).

(** The generated method [String()] of the enum. *)
Definition CredentialType_String (t : CredentialType) : string :=
  match t with
  | CredentialType_pkcs12 => "pkcs12"
  | CredentialType_password => "password"
  | CredentialType_other name => name
  end.

(** Modelled from the spec: the fields of [vault.Credential] that
    [GetTokenFromCredential] reads (the spec's CredentialDescriptor: kind,
    secretBytes, password, privateKeyPathHint). *)
Record Credential : Type := mkCredential {
  Type_ : CredentialType;
  Secret : list Byte.byte;
  Password : string;
  PrivateKeyPath : string
}.

End vault.

(* ------------------------------------------------------------------ *)
(** ** Package [multierr] *)

Module multierr.

(** The non-nil error values the package meets: an error from elsewhere,
    its own [withMessage] (built by [Wrap] only, so the cause is never
    nil) and a pointer to an [Errors], whose slice may hold nil. *)
Inductive Error : Type :=
| Foreign (e : errors.Error)
| withMessage (cause : Error) (msg : string)
| ErrorsPtr (errs : list (option Error)).

Definition error : Type := option Error.

(** The struct [Errors]; the field is the slice [Errors]. *)
Record Errors : Type := mkErrors {
  Errors_ : list error
}.

(** The zero value, ready to use. *)
Definition Errors_zero : Errors := {| Errors_ := [] |}.

Definition tab : string := String (ascii_of_nat 9) EmptyString.

(** [strconv.Itoa] on a length. *)
Definition Itoa (n : nat) : string :=
  DecimalString.NilEmpty.string_of_uint (Nat.to_uint n).

(** The first line the method [Error] of [Errors] writes. *)
Definition header (len : nat) : string :=
  let n := Itoa len in
  if String.eqb n "1"
  then ("1 error occurred:" ++ newline)%string
  else (n ++ " errors occurred:" ++ newline)%string.

(** The method [Error() string] of every error value.  [None] stands for
    the panic of calling it on a nil element of the slice. *)
Fixpoint Error_ (e : Error) : option string :=
  match e with
  | Foreign f => Some (errors.Error_ f)
  | withMessage cause msg =>
      match Error_ cause with
      | Some s => Some (msg ++ ": " ++ s)%string
      | None => None
      end
  | ErrorsPtr errs =>
      let lines :=
        (fix lines (l : list (option Error)) : option string :=
           match l with
           | [] => Some EmptyString
           | None :: _ => None
           | Some x :: rest =>
               match Error_ x, lines rest with
               | Some s, Some out =>
                   Some (tab ++ "* " ++ s ++ newline ++ out)%string
               | _, _ => None
               end
           end) errs in
      match lines with
      | Some out => Some (header (List.length errs) ++ out)%string
      | None => None
      end
  end.

(** [(m *Errors) Error()]. *)
Definition Errors_Error (m : Errors) : option string :=
  Error_ (ErrorsPtr (Errors_ m)).

(** [Wrap]. *)
Definition Wrap (err : error) (message : string) : error :=
  match err with
  | None => None
  | Some e => Some (withMessage e message)
  end.

(** [(m *Errors) Add(err ...error)]; the struct after the call. *)
Fixpoint Add (m : Errors) (err : list error) : Errors :=
  match err with
  | [] => m
  | e :: rest =>
      Add (match e with
           | Some _ => {| Errors_ := Errors_ m ++ [e] |}
           | None => m
           end) rest
  end.

(** The loop of [Filter] over the rest [errs] of [m.Errors]. *)
Fixpoint Filter_range (f : error -> bool) (errs : list error) (res : Errors)
    : Errors :=
  match errs with
  | [] => res
  | cur :: rest =>
      Filter_range f rest
        (if negb (f cur) then {| Errors_ := Errors_ res ++ [cur] |} else res)
  end.

(** [(m *Errors) Filter(f)]. *)
Definition Filter (m : Errors) (f : error -> bool) : Errors :=
  Filter_range f (Errors_ m) Errors_zero.

(** [(m *Errors) IsEmpty()]; the receiver may be nil. *)
Definition IsEmpty (m : option Errors) : bool :=
  match m with
  | None => true
  | Some m => Nat.eqb (List.length (Errors_ m)) 0
  end.

(** A Go map from string to error, as the list of its entries (no key
    twice), and the assignment [track[k] = v]. *)
Definition Track : Type := list (string * Error).

Fixpoint track_set (k : string) (v : Error) (track : Track) : Track :=
  match track with
  | [] => [(k, v)]
  | (k', v') :: rest =>
      if String.eqb k k' then (k, v) :: rest else (k', v') :: track_set k v rest
  end.

(** The order in which [range] visits a map is not specified: it is some
    permutation of the entries. *)
Record MapOrder : Type := mkMapOrder {
  range : Track -> Track;
  range_permutes : forall track, Permutation (range track) track
}.

(** The first loop of [Deduplicate]; [None] when [e.Error()] panics. *)
Fixpoint Deduplicate_track (errs : list error) (track : Track) : option Track :=
  match errs with
  | [] => Some track
  | None :: _ => None
  | Some e :: rest =>
      match Error_ e with
      | Some k => Deduplicate_track rest (track_set k e track)
      | None => None
      end
  end.

(** [(m Errors) Deduplicate()]: [None] for a panic, [Some None] for the
    nil error, [Some (Some e)] for an error. *)
Definition Deduplicate (order : MapOrder) (m : Errors) : option error :=
  match Errors_ m with
  | [] => Some None
  | _ :: _ =>
      match Deduplicate_track (Errors_ m) [] with
      | Some track =>
          Some (Some (ErrorsPtr (map (fun kv => Some (snd kv)) (range order track))))
      | None => None
      end
  end.

(** *** Vocabulary of the statements *)

(** The slice holds no nil and every element can be printed. *)
Definition printable (errs : list error) : Prop :=
  Forall (fun x => exists e s, x = Some e /\ Error_ e = Some s) errs.

(** The message of an element, if it has one. *)
Definition message (x : error) : option string :=
  match x with
  | Some e => Error_ e
  | None => None
  end.

Definition is_nil (x : error) : bool :=
  match x with
  | Some _ => false
  | None => true
  end.

(** The lines the method [Error] of [Errors] writes for the messages [msgs]. *)
Fixpoint bullets (msgs : list string) : string :=
  match msgs with
  | [] => EmptyString
  | s :: rest => (tab ++ "* " ++ s ++ newline ++ bullets rest)%string
  end.

(** Map orders to run the code with: the order of first insertion and its
    reverse. *)
Definition insertion_order : MapOrder :=
  {| range := fun track => track;
     range_permutes := fun track => Permutation_refl track |}.

Definition reverse_order : MapOrder :=
  {| range := fun track => rev track;
     range_permutes := fun track => Permutation_sym (Permutation_rev track) |}.

(** The body [Error] writes below the header; the inner loop of
    [Error_]. *)
Fixpoint lines (l : list error) : option string :=
  match l with
  | [] => Some EmptyString
  | None :: _ => None
  | Some x :: rest =>
      match Error_ x, lines rest with
      | Some s, Some out => Some (tab ++ "* " ++ s ++ newline ++ out)%string
      | _, _ => None
      end
  end.

(** [e] is the last element of [errs] whose message is [k]. *)
Definition last_with_message (errs : list error) (e : Error) (k : string) : Prop :=
  exists l1 l2,
    errs = l1 ++ Some e :: l2 /\ Error_ e = Some k /\
    Forall (fun x => message x <> Some k) l2.

(** What the map of [Deduplicate] holds after the elements [seen]: one
    entry per message, the last element with that message. *)
Definition track_inv (seen : list error) (track : Track) : Prop :=
  NoDup (map fst track) /\
  forall k e, In (k, e) track <-> last_with_message seen e k.

(** Collections to run the code on: two errors of different types with
    the message 1 and one with the message 2. *)
Definition err1 : error := Some (Foreign (New "1")).
Definition err1' : error := Some (Foreign (AuthenticationFailedError "1")).
Definition err2 : error := Some (Foreign (New "2")).

Definition mixed : Errors := Add (Add Errors_zero [err1; None; err2]) [None; err1'].

Definition ones : Errors := Add Errors_zero [err1; None; err1'].

End multierr.

(* ------------------------------------------------------------------ *)
(** ** Package [azauth] *)

Module azauth.

Section Azauth.

(** The world outside the process: identity endpoints, environment, the
    wall clock.  [clock] is [time.Now()] in nanoseconds. *)
Context {W : Type}.
Variable clock : W -> Z.

(** [azidentity.ManagedIdentityCredential] and its method [GetToken], a
    blocking call that answers with a token and an error and may change
    the world (time passes, caches fill). *)
Context {ManagedIdentityCredential : Type}.
Variable mic_GetToken :
  ManagedIdentityCredential -> W -> Context -> TokenRequestOptions ->
  (AccessToken * error) * W.

(** The struct of the retry wrapper.  Go's [int] and [time.Duration]
    (nanoseconds) are read as integers; the code adds 1 to a counter below
    [attempts] and compares, so no operation can leave the 64-bit range. *)
Record retryableManagedIdentityCredential : Type := mkRetryable {
  mic : ManagedIdentityCredential;
  attempts : Z;
  timeout : Z
}.

Definition set_attempts (t : retryableManagedIdentityCredential) (n : Z) :=
  {| mic := mic t; attempts := n; timeout := timeout t |}.

Definition set_timeout (t : retryableManagedIdentityCredential) (d : Z) :=
  {| mic := mic t; attempts := attempts t; timeout := d |}.

(** Credentials built by [azidentity] constructors are opaque; the chained
    credential is opaque as well. *)
Context {AzCredential : Type}.
Context {ChainedTokenCredential : Type}.

(** Values of the interface [azcore.TokenCredential] that occur. *)
Inductive TokenCredential : Type :=
| NilCredential
| Azidentity (c : option AzCredential)        (* a pointer from azidentity *)
| Retryable (t : retryableManagedIdentityCredential)
| Chained (c : option ChainedTokenCredential). (* *ChainedTokenCredential *)

(** The result of [azidentity.ParseCertificates]. *)
Context {Certificates : Type}.
Context {PrivateKey : Type}.

(** One invocation of the underlying credential as the trace records it. *)
Record MicCall : Type := mkMicCall {
  call_mic : ManagedIdentityCredential;
  call_ctx : Context;
  call_opts : TokenRequestOptions;
  call_tk : AccessToken;
  call_err : error
}.

(** Ghost trace: the calls made to collaborators, in program order. *)
Inductive Event : Type :=
| EvMicGetToken (c : MicCall)
| EvLogAttemptFailed (err : Error) (attempt max_attempts : Z)
| EvLogMaxRetries (num_attempts : Z)
| EvLogDefaultChain
| EvResolver (index : nat) (cred : TokenCredential) (err : error)
| EvNewChainedTokenCredential (sources : list TokenCredential)
| EvParseCertificates (certData password : list Byte.byte)
| EvNewClientCertificateCredential (tenantID clientID : string)
| EvNewClientSecretCredential (tenantID clientID secret : string).

Record State : Type := mkState {
  world : W;
  trace : list Event
}.

(** A state monad over [State]. *)
Definition M (A : Type) : Type := State -> A * State.

Definition ret {A} (a : A) : M A := fun st => (a, st).

Definition bind {A B} (m : M A) (k : A -> M B) : M B :=
  fun st => let (a, st') := m st in k a st'.

Notation "x <- m ;; k" := (bind m (fun x => k))
  (at level 61, m at next level, right associativity).
Notation "' p <- m ;; k" := (bind m (fun x => match x with p => k end))
  (at level 61, p pattern, m at next level, right associativity).
Notation "m ;;; k" := (bind m (fun _ => k))
  (at level 61, right associativity).

Definition time_Now : M Z := fun st => (clock (world st), st).

Definition emit (e : Event) : M unit :=
  fun st => (tt, {| world := world st; trace := trace st ++ [e] |}).

(** [t.mic.GetToken(c, opts)], recorded. *)
Definition call_mic_GetToken (m : ManagedIdentityCredential) (c : Context)
    (opts : TokenRequestOptions) : M (AccessToken * error) :=
  fun st =>
    let '((tk, err), w') := mic_GetToken m (world st) c opts in
    ((tk, err),
     {| world := w';
        trace := trace st ++ [EvMicGetToken (mkMicCall m c opts tk err)] |}).

(** The test of [tryGetToken] for a timed-out request:
    [errors.As(err, &authFailedErr) &&
     strings.Contains(err.Error(), "context deadline exceeded")]. *)
Definition is_timeout_failure (e : Error) : bool :=
  As_AuthenticationFailedError e &&
  strings.Contains (Error_ e) "context deadline exceeded".

(** [tryGetToken].  Its first statement,
    [ctx, cancel := context.WithTimeout(ctx, t.timeout)], declares [cancel]
    and assigns to the parameter [ctx] (a short variable declaration
    redeclares a variable of the same block), so both branches below see
    the derived context.  The two [WithTimeout] calls read the clock in the
    same world; the deferred [cancel] calls release timers only. *)
Definition tryGetToken (t : retryableManagedIdentityCredential)
    (ctx : Context) (opts : TokenRequestOptions)
    : M (retryableManagedIdentityCredential * (AccessToken * error)) :=
  now <- time_Now ;;
  let ctx := WithTimeout now ctx (timeout t) in
  if 0 <? timeout t then
    now' <- time_Now ;;
    let c := WithTimeout now' ctx (timeout t) in
    '(tk, err) <- call_mic_GetToken (mic t) c opts ;;
    match err with
    | Some e =>
        if is_timeout_failure e
        then ret (t, (tk, Some (CredentialUnavailableError
                                  "managed identity request timed out")))
        else ret (t, (tk, Some e))
    | None => ret (set_timeout t 0, (tk, None))
    end
  else
    '(tk, err) <- call_mic_GetToken (mic t) ctx opts ;;
    ret (t, (tk, err)).

(** The loop of [GetToken], [for i := 0; i < t.attempts; i++].  [fuel]
    bounds the iterations; [None] means the bound was too small. *)
Fixpoint GetToken_loop (fuel : nat) (t : retryableManagedIdentityCredential)
    (ctx : Context) (opts : TokenRequestOptions) (i : Z) (errs : list Error)
    : M (option (retryableManagedIdentityCredential * (AccessToken * error))) :=
  if i <? attempts t then
    match fuel with
    | O => ret None
    | S fuel' =>
        '(t', (tk, err)) <- tryGetToken t ctx opts ;;
        match err with
        | None => ret (Some (t', (tk, None)))
        | Some e =>
            emit (EvLogAttemptFailed e (i + 1) (attempts t')) ;;;
            GetToken_loop fuel' t' ctx opts (i + 1) (errs ++ [e])
        end
    end
  else
    emit (EvLogMaxRetries (attempts t)) ;;;
    ret (Some (t, (AccessToken_zero, Join errs))).

(** [GetToken].  The receiver is a pointer: the updated struct is returned
    next to the method's results. *)
Definition GetToken (t : retryableManagedIdentityCredential)
    (ctx : Context) (opts : TokenRequestOptions)
    : M (option (retryableManagedIdentityCredential * (AccessToken * error))) :=
  let t := if attempts t <? 1 then set_attempts t 1 else t in
  GetToken_loop (Z.to_nat (attempts t)) t ctx opts 0 [].

(** *** Resolvers and the chain *)

(** [TokenResolverFn]: a closure; calling it may consult the world. *)
Definition TokenResolverFn : Type := W -> (TokenCredential * error) * W.

(** Option structs of [azidentity], reduced to the fields this file sets. *)
Context {ClientOptions : Type}.
Variable ClientOptions_zero : ClientOptions.

Record AzureCLICredentialOptions : Type := {
  cli_AdditionallyAllowedTenants : list string
}.
Record EnvironmentCredentialOptions : Type := {
  env_ClientOptions : ClientOptions
}.
Record ManagedIdentityCredentialOptions : Type := {
  mi_ClientOptions : ClientOptions
}.
Record WorkloadIdentityCredentialOptions : Type := {
  wi_ClientOptions : ClientOptions;
  wi_DisableInstanceDiscovery : bool;
  wi_TenantID : string
}.
Record DefaultAzureCredentialOptions : Type := {
  def_ClientOptions : ClientOptions;
  def_DisableInstanceDiscovery : bool;
  def_TenantID : string
}.

(** The zero value [azidentity.DefaultAzureCredentialOptions{}]. *)
Definition DefaultAzureCredentialOptions_zero : DefaultAzureCredentialOptions :=
  {| def_ClientOptions := ClientOptions_zero;
     def_DisableInstanceDiscovery := false;
     def_TenantID := EmptyString |}.

(** Constructors of [azidentity].  Each returns a pointer (possibly nil)
    and an error. *)
Variable NewAzureCLICredential :
  AzureCLICredentialOptions -> W -> (option AzCredential * error) * W.
Variable NewEnvironmentCredential :
  EnvironmentCredentialOptions -> W -> (option AzCredential * error) * W.
Variable NewWorkloadIdentityCredential :
  WorkloadIdentityCredentialOptions -> W -> (option AzCredential * error) * W.
(** [NewManagedIdentityCredential] answers with a credential or an error;
    the code dereferences the pointer whenever the error is nil. *)
Variable NewManagedIdentityCredential :
  ManagedIdentityCredentialOptions -> W -> (ManagedIdentityCredential + Error) * W.
Variable NewChainedTokenCredential :
  list TokenCredential -> option ChainedTokenCredential * error.
Variable ParseCertificates :
  list Byte.byte -> list Byte.byte -> Certificates * PrivateKey * error.
Variable NewClientCertificateCredential :
  string -> string -> Certificates -> PrivateKey -> option AzCredential * error.
Variable NewClientSecretCredential :
  string -> string -> string -> option AzCredential * error.

Definition WithStaticToken (t : TokenCredential) : TokenResolverFn :=
  fun w => ((t, None), w).

Definition WithCliCredentials (opts : AzureCLICredentialOptions) : TokenResolverFn :=
  fun w => let '((c, err), w') := NewAzureCLICredential opts w in
           ((Azidentity c, err), w').

Definition WithEnvCredentials (opts : EnvironmentCredentialOptions) : TokenResolverFn :=
  fun w => let '((c, err), w') := NewEnvironmentCredential opts w in
           ((Azidentity c, err), w').

Definition WithRetryableManagedIdentityCredentials (timeout : Z) (attempts : Z)
    (opts : ManagedIdentityCredentialOptions) : TokenResolverFn :=
  fun w =>
    match NewManagedIdentityCredential opts w with
    | (inr err, w') => ((NilCredential, Some err), w')
    | (inl m, w') =>
        ((Retryable {| mic := m; attempts := attempts; timeout := timeout |},
          None), w')
    end.

Definition WithWorkloadIdentityCredentials (opts : WorkloadIdentityCredentialOptions)
    : TokenResolverFn :=
  fun w => let '((c, err), w') := NewWorkloadIdentityCredential opts w in
           ((Azidentity c, err), w').

(** [cred, err := fn()] for the resolver at position [index], recorded. *)
Definition call_resolver (index : nat) (fn : TokenResolverFn)
    : M (TokenCredential * error) :=
  fun st =>
    let '((cred, err), w') := fn (world st) in
    ((cred, err),
     {| world := w'; trace := trace st ++ [EvResolver index cred err] |}).

Definition call_NewChainedTokenCredential (sources : list TokenCredential)
    : M (option ChainedTokenCredential * error) :=
  emit (EvNewChainedTokenCredential sources) ;;;
  ret (NewChainedTokenCredential sources).

(** The loop [for _, fn := range opts] of [BuildChainedToken]; [index] is
    the position of the head of [opts] in the original slice. *)
Fixpoint BuildChainedToken_range (index : nat) (opts : list TokenResolverFn)
    (chain : list TokenCredential) : M (list TokenCredential) :=
  match opts with
  | [] => ret chain
  | fn :: rest =>
      '(cred, err) <- call_resolver index fn ;;
      BuildChainedToken_range (S index) rest
        (match err with
         | None => chain ++ [cred]
         | Some _ => chain
         end)
  end.

Definition BuildChainedToken (opts : list TokenResolverFn)
    : M (option ChainedTokenCredential * error) :=
  chain <- BuildChainedToken_range 0 opts [] ;;
  call_NewChainedTokenCredential chain.

Definition time_Second : Z := 1000000000.
Definition DefaultRetryableManagedIdentityTimeout : Z := 5 * time_Second.
Definition DefaultRetryableManagedIdentityAttempts : Z := 3.

Definition GetDefaultChainedToken (options : option DefaultAzureCredentialOptions)
    : M (option ChainedTokenCredential * error) :=
  let options :=
    match options with
    | None => DefaultAzureCredentialOptions_zero
    | Some o => o
    end in
  let opts :=
    [ WithCliCredentials {| cli_AdditionallyAllowedTenants := ["*"] |};
      WithEnvCredentials {| env_ClientOptions := def_ClientOptions options |};
      WithRetryableManagedIdentityCredentials
        DefaultRetryableManagedIdentityTimeout
        DefaultRetryableManagedIdentityAttempts
        {| mi_ClientOptions := def_ClientOptions options |};
      WithWorkloadIdentityCredentials
        {| wi_ClientOptions := def_ClientOptions options;
           wi_DisableInstanceDiscovery := def_DisableInstanceDiscovery options;
           wi_TenantID := def_TenantID options |} ] in
  BuildChainedToken opts.

(** *** Materialising a credential from a vault descriptor *)

Definition call_ParseCertificates (certData password : list Byte.byte)
    : M (Certificates * PrivateKey * error) :=
  emit (EvParseCertificates certData password) ;;;
  ret (ParseCertificates certData password).

Definition call_NewClientCertificateCredential (tenantID clientID : string)
    (certs : Certificates) (key : PrivateKey) : M (option AzCredential * error) :=
  emit (EvNewClientCertificateCredential tenantID clientID) ;;;
  ret (NewClientCertificateCredential tenantID clientID certs key).

Definition call_NewClientSecretCredential (tenantID clientID secret : string)
    : M (option AzCredential * error) :=
  emit (EvNewClientSecretCredential tenantID clientID secret) ;;;
  ret (NewClientSecretCredential tenantID clientID secret).

(** [GetTokenFromCredential]; a nil [*vault.Credential] is [None]. *)
Definition GetTokenFromCredential (credential : option vault.Credential)
    (tenantID clientID : string) : M (TokenCredential * error) :=
  match credential with
  | None =>
      emit EvLogDefaultChain ;;;
      '(chain, err) <- GetDefaultChainedToken (Some DefaultAzureCredentialOptions_zero) ;;
      match err with
      | Some e => ret (NilCredential, Wrap (Some e) "error creating CLI credentials")
      | None => ret (Chained chain, None)
      end
  | Some credential =>
      match vault.Type_ credential with
      | vault.CredentialType_pkcs12 =>
          '(certs, privateKey, err) <-
            call_ParseCertificates (vault.Secret credential)
              (list_byte_of_string (vault.Password credential)) ;;
          match err with
          | Some e =>
              ret (NilCredential,
                   Wrap (Some e)
                     ("could not parse provided certificate at "
                      ++ vault.PrivateKeyPath credential))
          | None =>
              '(azCred, err) <-
                call_NewClientCertificateCredential tenantID clientID certs privateKey ;;
              match err with
              | Some e =>
                  ret (NilCredential,
                       Wrap (Some e) "error creating credentials from a certificate")
              | None => ret (Azidentity azCred, None)
              end
          end
      | vault.CredentialType_password =>
          '(azCred, err) <-
            call_NewClientSecretCredential tenantID clientID
              (string_of_list_byte (vault.Secret credential)) ;;
          match err with
          | Some e =>
              ret (NilCredential,
                   Wrap (Some e) "error creating credentials from a secret")
          | None => ret (Azidentity azCred, None)
          end
      | vault.CredentialType_other _ =>
          ret (NilCredential,
               Some (New ("invalid secret configuration for microsoft transport: "
                          ++ vault.CredentialType_String (vault.Type_ credential))))
      end
  end.

(* ------------------------------------------------------------------ *)
(** *** Vocabulary of the statements

    Nothing below is code of the package: these definitions read the trace
    and name what the theorems speak about. *)

(** The invocations of the underlying credential, in order. *)
Definition mic_calls (tr : list Event) : list MicCall :=
  flat_map (fun e => match e with EvMicGetToken c => [c] | _ => [] end) tr.

Definition failed (c : MicCall) : bool :=
  match call_err c with
  | Some _ => true
  | None => false
  end.

(** The errors the invocations returned, in order. *)
Definition raw_errors (cs : list MicCall) : list Error :=
  flat_map (fun c => match call_err c with Some e => [e] | None => [] end) cs.

(** A recorded call that the credential [m] really answered in some world. *)
Definition genuine (m : ManagedIdentityCredential) (c : MicCall) : Prop :=
  call_mic c = m /\
  exists w, fst (mic_GetToken m w (call_ctx c) (call_opts c)) = (call_tk c, call_err c).

(** The context [tryGetToken] hands to the underlying credential when the
    clock shows [now]. *)
Definition attempt_context (now : Z) (ctx : Context) (timeout : Z) : Context :=
  let ctx' := WithTimeout now ctx timeout in
  if 0 <? timeout then WithTimeout now ctx' timeout else ctx'.

(** The error [tryGetToken] reports for the underlying error [e]. *)
Definition recorded_error (timeout : Z) (e : Error) : Error :=
  if (0 <? timeout) && is_timeout_failure e
  then CredentialUnavailableError "managed identity request timed out"
  else e.

(** The underlying credential fails [n] times in a row from world [w] on,
    whatever it is asked, and succeeds on the invocation after these. *)
Fixpoint succeeds_after (m : ManagedIdentityCredential) (n : nat) (w : W) : Prop :=
  match n with
  | O => forall c o, snd (fst (mic_GetToken m w c o)) = None
  | S n' =>
      forall c o,
        (exists e, snd (fst (mic_GetToken m w c o)) = Some e) /\
        succeeds_after m n' (snd (mic_GetToken m w c o))
  end.

(** What a run of the loop from index [i] with the pending errors [errs]
    leaves behind: the new invocations [cs], the struct [t'] and the
    results [tk], [err]. *)
Definition loop_outcome (t : retryableManagedIdentityCredential) (i : Z)
    (errs : list Error) (cs : list MicCall)
    (t' : retryableManagedIdentityCredential) (tk : AccessToken) (err : error)
    : Prop :=
  (exists cs0 c,
      cs = cs0 ++ [c] /\ forallb failed cs0 = true /\ call_err c = None /\
      tk = call_tk c /\ err = None /\
      Z.of_nat (List.length cs) <= attempts t - i /\
      t' = (if 0 <? timeout t then set_timeout t 0 else t))
  \/
  (forallb failed cs = true /\
   Z.of_nat (List.length cs) = Z.max 0 (attempts t - i) /\
   tk = AccessToken_zero /\
   err = Join (errs ++ map (recorded_error (timeout t)) (raw_errors cs)) /\
   t' = t).

(** The struct as the loop sees it, after [if t.attempts < 1]. *)
Definition coerced (t : retryableManagedIdentityCredential) :=
  if attempts t <? 1 then set_attempts t 1 else t.

(** The invocations made between two states of one run. *)
Definition new_calls (st st' : State) : list MicCall :=
  skipn (List.length (mic_calls (trace st))) (mic_calls (trace st')).

(** Every resolver called once, first to last: what each returned. *)
Fixpoint run_resolvers (opts : list TokenResolverFn) (w : W)
    : list (TokenCredential * error) * W :=
  match opts with
  | [] => ([], w)
  | fn :: rest =>
      let (r, w') := fn w in
      let (rs, w'') := run_resolvers rest w' in
      (r :: rs, w'')
  end.

(** A resolver that returns an error in whatever world it is called. *)
Definition always_fails (fn : TokenResolverFn) : Prop :=
  forall w, exists e, snd (fst (fn w)) = Some e.

(** The credentials among the results that came with a nil error. *)
Definition resolved (rs : list (TokenCredential * error)) : list TokenCredential :=
  flat_map (fun r => match snd r with None => [fst r] | Some _ => [] end) rs.

Fixpoint resolver_events (index : nat) (rs : list (TokenCredential * error))
    : list Event :=
  match rs with
  | [] => []
  | r :: rest => EvResolver index (fst r) (snd r) :: resolver_events (S index) rest
  end.

(** What each invocation made on behalf of [GetToken t ctx opts] looks
    like: the struct's credential, the caller's options, and the context
    of an attempt started when some world's clock was read. *)
Definition call_shape (t : retryableManagedIdentityCredential) (ctx : Context)
    (opts : TokenRequestOptions) (c : MicCall) : Prop :=
  call_mic c = mic t /\ call_opts c = opts /\
  exists w, call_ctx c = attempt_context (clock w) ctx (timeout t).

(** The events a run of attempts leaves, the first attempt having index
    [i]: every invocation, followed by its log line when it failed.  [d] is
    the timeout and [n] the value of [attempts] during the run. *)
Fixpoint attempt_events (d n i : Z) (cs : list MicCall) : list Event :=
  match cs with
  | [] => []
  | c :: rest =>
      EvMicGetToken c ::
      match call_err c with
      | Some e =>
          EvLogAttemptFailed (recorded_error d e) (i + 1) n ::
          attempt_events d n (i + 1) rest
      | None => attempt_events d n (i + 1) rest
      end
  end.


End Azauth.

Arguments retryableManagedIdentityCredential : clear implicits.
Arguments TokenCredential : clear implicits.
Arguments MicCall : clear implicits.
Arguments Event : clear implicits.
Arguments State : clear implicits.
Arguments M : clear implicits.
Arguments TokenResolverFn : clear implicits.
Arguments EnvironmentCredentialOptions : clear implicits.
Arguments ManagedIdentityCredentialOptions : clear implicits.
Arguments WorkloadIdentityCredentialOptions : clear implicits.
Arguments DefaultAzureCredentialOptions : clear implicits.

(* ------------------------------------------------------------------ *)
(** *** A scripted world, for running the code on concrete inputs *)

(** The clock and the number of invocations of the underlying credential
    so far. *)
Record SimWorld : Type := mkSimWorld {
  sim_now : Z;
  sim_count : nat
}.

(** A scripted managed identity credential: its answer to the n-th
    invocation, and whether it gives up on a context that is done. *)
Record SimCredential : Type := mkSimCredential {
  sim_answer : nat -> AccessToken * error;
  sim_honours_ctx : bool
}.

Definition sim_GetToken (m : SimCredential) (w : SimWorld) (c : Context)
    (o : TokenRequestOptions) : (AccessToken * error) * SimWorld :=
  let w' := {| sim_now := sim_now w + 1; sim_count := S (sim_count w) |} in
  match sim_honours_ctx m, Err c with
  | true, Some e =>
      ((AccessToken_zero,
        Some (AuthenticationFailedError
                ("ManagedIdentityCredential authentication failed: " ++ Error_ e))),
       w')
  | _, _ => (sim_answer m (sim_count w), w')
  end.

Definition SimState : Type := State SimWorld SimCredential string nat.

Definition sim_start : SimState :=
  {| world := {| sim_now := 1000; sim_count := 0 |}; trace := [] |}.

Definition sim_token : AccessToken := {| Token := "T"; ExpiresOn := 999999 |}.

Definition sim_opts : TokenRequestOptions :=
  {| Scopes := ["https://management.azure.com/.default"] |}.

Definition sim_rejected : Error :=
  AuthenticationFailedError "AADSTS7000215: invalid client secret provided".

Definition sim_timed_out : Error :=
  AuthenticationFailedError
    "managed identity: Get http://169.254.169.254: context deadline exceeded".

(** Credentials that always fail, always succeed, and succeed on the third
    invocation. *)
Definition always_rejected : SimCredential :=
  {| sim_answer := fun _ => (AccessToken_zero, Some sim_rejected);
     sim_honours_ctx := false |}.

Definition always_times_out : SimCredential :=
  {| sim_answer := fun _ => (AccessToken_zero, Some sim_timed_out);
     sim_honours_ctx := false |}.

Definition third_time_lucky : SimCredential :=
  {| sim_answer := fun n => if (n <? 2)%nat
                            then (AccessToken_zero, Some sim_rejected)
                            else (sim_token, None);
     sim_honours_ctx := false |}.

Definition reachable_endpoint : SimCredential :=
  {| sim_answer := fun _ => (sim_token, None); sim_honours_ctx := true |}.

(** [azidentity.NewChainedTokenCredential] as the library documents it:
    an empty list and a nil source are refused. *)
Definition sim_NewChainedTokenCredential
    (sources : list (TokenCredential SimCredential string nat))
    : option nat * error :=
  match sources with
  | [] => (None, Some (New "sources must contain at least one TokenCredential"))
  | _ :: _ =>
      if existsb (fun c => match c with NilCredential => true | _ => false end) sources
      then (None, Some (New "sources cannot contain nil"))
      else (Some (List.length sources), None)
  end.

Definition sim_failing (msg : string)
    : TokenResolverFn SimWorld SimCredential string nat :=
  fun w => ((NilCredential, Some (New msg)), w).

Definition sim_timeout : Z := DefaultRetryableManagedIdentityTimeout.

Definition rejected3 : retryableManagedIdentityCredential SimCredential :=
  mkRetryable always_rejected 3 sim_timeout.

Definition rejected_run :=
  GetToken sim_now sim_GetToken rejected3 Background sim_opts sim_start.

Definition lucky3 : retryableManagedIdentityCredential SimCredential :=
  mkRetryable third_time_lucky 3 sim_timeout.

Definition unset_attempts : retryableManagedIdentityCredential SimCredential :=
  mkRetryable reachable_endpoint 0 sim_timeout.

Definition timing_out3 : retryableManagedIdentityCredential SimCredential :=
  mkRetryable always_times_out 3 sim_timeout.

Definition timing_out_try :=
  tryGetToken sim_now sim_GetToken timing_out3 Background sim_opts sim_start.

(** A credential on a reachable endpoint, its first [GetToken] and the
    [GetToken] that follows on the struct the first one left. *)
Definition reachable3 : retryableManagedIdentityCredential SimCredential :=
  mkRetryable reachable_endpoint 3 sim_timeout.

Definition first_run :=
  GetToken sim_now sim_GetToken reachable3 Background sim_opts sim_start.

Definition relaxed3 : retryableManagedIdentityCredential SimCredential :=
  mkRetryable reachable_endpoint 3 0.

Definition second_run :=
  GetToken sim_now sim_GetToken relaxed3 Background sim_opts (snd first_run).

(** Two resolvers that fail, as on a machine without the Azure CLI and
    without the environment variables. *)
Definition failing_resolvers : list (TokenResolverFn SimWorld SimCredential string nat) :=
  [ sim_failing "Azure CLI not found on path";
    sim_failing "missing environment variable AZURE_TENANT_ID" ].

(** A failing resolver before, between and after two static tokens. *)
Definition mixed_resolvers : list (TokenResolverFn SimWorld SimCredential string nat) :=
  [ sim_failing "Azure CLI not found on path";
    WithStaticToken (Azidentity (Some "env"));
    sim_failing "no managed identity endpoint";
    WithStaticToken (Azidentity (Some "workload"));
    sim_failing "no federated token file" ].

(** A parser that accepts a bundle only if it starts with the DER sequence
    tag, and constructors that build opaque credentials.  Parsing and
    constructing are local computations; the world is not an argument. *)
Definition sim_ParseCertificates (certData password : list Byte.byte)
    : unit * unit * error :=
  match certData with
  | Byte.x30 :: _ => (tt, tt, None)
  | _ => (tt, tt, Some (New "pkcs12: error reading P12 data"))
  end.

Definition sim_NewClientCertificateCredential (tenantID clientID : string)
    (certs key : unit) : option string * error :=
  (Some "certificate", None).

Definition sim_NewClientSecretCredential (tenantID clientID secret : string)
    : option string * error :=
  (Some "secret", None).

Definition sim_unavailable {O : Type} (msg : string) (opts : O) (w : SimWorld)
    : (option string * error) * SimWorld :=
  ((None, Some (CredentialUnavailableError msg)), w).

Definition sim_NewManagedIdentityCredential
    (opts : ManagedIdentityCredentialOptions unit) (w : SimWorld)
    : (SimCredential + Error) * SimWorld :=
  (inl reachable_endpoint, w).

Definition corrupted_bundle : vault.Credential :=
  {| vault.Type_ := vault.CredentialType_pkcs12;
     vault.Secret := [Byte.x00; Byte.xff; Byte.x13];
     vault.Password := "changeit";
     vault.PrivateKeyPath := "/etc/kopexa/sp.pfx" |}.

Definition sim_GetTokenFromCredential :=
  GetTokenFromCredential tt
    (sim_unavailable "Azure CLI not found on path")
    (sim_unavailable "missing environment variable AZURE_TENANT_ID")
    (sim_unavailable "no federated token file")
    sim_NewManagedIdentityCredential
    sim_NewChainedTokenCredential
    sim_ParseCertificates
    sim_NewClientCertificateCredential
    sim_NewClientSecretCredential.

(** Constructors that succeed, for a machine where every source of the
    default chain is available. *)
Definition sim_available {O : Type} (name : string) (opts : O) (w : SimWorld)
    : (option string * error) * SimWorld :=
  ((Some name, None), {| sim_now := sim_now w + 1; sim_count := sim_count w |}).

Definition ssh_agent_descriptor : vault.Credential :=
  {| vault.Type_ := vault.CredentialType_other "ssh_agent";
     vault.Secret := [];
     vault.Password := EmptyString;
     vault.PrivateKeyPath := EmptyString |}.

Definition password_descriptor : vault.Credential :=
  {| vault.Type_ := vault.CredentialType_password;
     vault.Secret := list_byte_of_string "s3cr3t";
     vault.Password := EmptyString;
     vault.PrivateKeyPath := EmptyString |}.

Definition parsable_bundle : vault.Credential :=
  {| vault.Type_ := vault.CredentialType_pkcs12;
     vault.Secret := [Byte.x30; Byte.x82; Byte.x0a];
     vault.Password := "changeit";
     vault.PrivateKeyPath := "/etc/kopexa/sp.pfx" |}.

(* ------------------------------------------------------------------ *)
(** ** Facts about the code, for every world and every collaborator *)

Section Facts.

Context {W : Type} (clock : W -> Z).
Context {ManagedIdentityCredential : Type}.
Context (mic_GetToken :
  ManagedIdentityCredential -> W -> Context -> TokenRequestOptions ->
  (AccessToken * error) * W).
Context {AzCredential ChainedTokenCredential Certificates PrivateKey : Type}.
Context {ClientOptions : Type} (ClientOptions_zero : ClientOptions).
Context (NewAzureCLICredential :
  AzureCLICredentialOptions -> W -> (option AzCredential * error) * W).
Context (NewEnvironmentCredential :
  EnvironmentCredentialOptions ClientOptions -> W -> (option AzCredential * error) * W).
Context (NewWorkloadIdentityCredential :
  WorkloadIdentityCredentialOptions ClientOptions -> W ->
  (option AzCredential * error) * W).
Context (NewManagedIdentityCredential :
  ManagedIdentityCredentialOptions ClientOptions -> W ->
  (ManagedIdentityCredential + Error) * W).
Context (NewChainedTokenCredential :
  list (TokenCredential ManagedIdentityCredential AzCredential ChainedTokenCredential) ->
  option ChainedTokenCredential * error).
Context (ParseCertificates :
  list Byte.byte -> list Byte.byte -> Certificates * PrivateKey * error).
Context (NewClientCertificateCredential :
  string -> string -> Certificates -> PrivateKey -> option AzCredential * error).
Context (NewClientSecretCredential :
  string -> string -> string -> option AzCredential * error).

Implicit Types t : retryableManagedIdentityCredential ManagedIdentityCredential.
Implicit Types st : State W ManagedIdentityCredential AzCredential ChainedTokenCredential.
Implicit Types cs : list (MicCall ManagedIdentityCredential).

Local Abbreviation Resolvers :=
  (list (TokenResolverFn W ManagedIdentityCredential AzCredential ChainedTokenCredential)).

Lemma prefix_append (p t : string) : String.prefix p (p ++ t)%string = true.
Proof.
  induction p as [|a p IH]; simpl.
  - destruct t; reflexivity.
  - destruct (Ascii.ascii_dec a a) as [_|ne]; [exact IH | now elim ne].
Qed.

Lemma append_assoc (a b c : string) :
  (a ++ (b ++ c))%string = ((a ++ b) ++ c)%string.
Proof. induction a as [|x a IH]; cbn; [|rewrite IH]; reflexivity. Qed.

Lemma Contains_here (p t : string) : strings.Contains (p ++ t)%string p = true.
Proof.
  pose proof (prefix_append p t) as H.
  destruct (p ++ t)%string; cbn [strings.Contains]; rewrite H; reflexivity.
Qed.

Lemma Contains_append (a p t : string) : strings.Contains (a ++ p ++ t)%string p = true.
Proof.
  induction a as [|c a IH].
  - change (strings.Contains (p ++ t)%string p = true). apply Contains_here.
  - change ((String c a) ++ p ++ t)%string with (String c (a ++ p ++ t)%string).
    cbn [strings.Contains]. rewrite IH. apply orb_true_r.
Qed.

(* ------------------------------------------------------------------ *)
(** *** The retry wrapper *)

Lemma mic_calls_app
    (a b : list (Event ManagedIdentityCredential AzCredential ChainedTokenCredential)) :
  mic_calls (a ++ b) = mic_calls a ++ mic_calls b.
Proof. unfold mic_calls. apply flat_map_app. Qed.

Lemma raw_errors_app (a b : list (MicCall ManagedIdentityCredential)) :
  raw_errors (a ++ b) = raw_errors a ++ raw_errors b.
Proof. unfold raw_errors. apply flat_map_app. Qed.

(** One attempt: exactly one invocation of the underlying credential, under
    [attempt_context]; the struct changes only by the relaxed timeout. *)
Lemma tryGetToken_step t ctx opts st :
  let c := attempt_context (clock (world st)) ctx (timeout t) in
  let r := mic_GetToken (mic t) (world st) c opts in
  tryGetToken clock mic_GetToken t ctx opts st =
    ((match snd (fst r) with
      | None => if 0 <? timeout t then set_timeout t 0 else t
      | Some _ => t
      end,
      (fst (fst r), option_map (recorded_error (timeout t)) (snd (fst r)))),
     {| world := snd r;
        trace := trace st ++
                 [EvMicGetToken (mkMicCall (mic t) c opts (fst (fst r)) (snd (fst r)))] |}).
Proof.
  cbv zeta. unfold tryGetToken, attempt_context, recorded_error, bind, time_Now,
    call_mic_GetToken, ret.
  destruct (0 <? timeout t) eqn:Hpos; cbn [andb].
  - destruct (mic_GetToken _ _ _ _) as [[tk [e|]] w']; cbn.
    + destruct (is_timeout_failure e); reflexivity.
    + reflexivity.
  - destruct (mic_GetToken _ _ _ _) as [[tk [e|]] w']; reflexivity.
Qed.

(** The loop has run out of attempts: it logs and returns the joined
    errors without a further invocation. *)
Local Ltac loop_exits t errs st :=
  exists t, AccessToken_zero, (Join errs),
    {| world := world st; trace := trace st ++ [EvLogMaxRetries (attempts t)] |}, [];
  split; [reflexivity|]; cbn [trace];
  split; [rewrite mic_calls_app; reflexivity|];
  split; [constructor|];
  right; cbn; rewrite app_nil_r; repeat split; lia.

(** The loop returns within [attempts - i] iterations; what it leaves is a
    [loop_outcome]. *)
Lemma GetToken_loop_spec ctx opts :
  forall fuel t i errs st,
    (Z.to_nat (attempts t - i) <= fuel)%nat ->
    exists t' tk err st' cs,
      GetToken_loop clock mic_GetToken fuel t ctx opts i errs st =
        (Some (t', (tk, err)), st') /\
      mic_calls (trace st') = mic_calls (trace st) ++ cs /\
      Forall (genuine mic_GetToken (mic t)) cs /\
      loop_outcome t i errs cs t' tk err.
Proof.
  induction fuel as [|fuel IH]; intros t i errs st Hfuel.
  - (* no iteration left: the loop condition is false *)
    assert (Hi : (i <? attempts t) = false) by (apply Z.ltb_ge; lia).
    cbn [GetToken_loop]. rewrite Hi. loop_exits t errs st.
  - cbn [GetToken_loop].
    destruct (i <? attempts t) eqn:Hi.
    2:{ apply Z.ltb_ge in Hi. loop_exits t errs st. }
    apply Z.ltb_lt in Hi.
    unfold bind at 1. rewrite tryGetToken_step.
    set (c := attempt_context (clock (world st)) ctx (timeout t)).
    destruct (mic_GetToken (mic t) (world st) c opts) as [[tk0 err0] w'] eqn:Hcall.
    cbn [fst snd option_map].
    set (call := mkMicCall (mic t) c opts tk0 err0).
    assert (Hgen : genuine mic_GetToken (mic t) call).
    { split; [reflexivity|]. exists (world st). cbn. rewrite Hcall. reflexivity. }
    destruct err0 as [e|].
    + (* the attempt failed: log, record, go on *)
      unfold bind at 1, emit at 1. cbn [world trace].
      destruct (IH t (i + 1) (errs ++ [recorded_error (timeout t) e])
                  {| world := w';
                     trace := (trace st ++ [EvMicGetToken call]) ++
                              [EvLogAttemptFailed (recorded_error (timeout t) e)
                                 (i + 1) (attempts t)] |})
        as (t' & tk & err & st' & cs & Hrun & Htr & Hg & Hout); [lia|].
      exists t', tk, err, st', (call :: cs).
      split; [exact Hrun|].
      split.
      { rewrite Htr. cbn [trace]. rewrite !mic_calls_app. cbn.
        rewrite app_nil_r, <- app_assoc. reflexivity. }
      split; [constructor; assumption|].
      destruct Hout as [(cs0 & c1 & -> & Hf & Hok & -> & -> & Hlen & ->)
                       |(Hf & Hlen & -> & -> & ->)].
      * left. exists (call :: cs0), c1.
        repeat split; try assumption; try reflexivity.
        cbn [List.length] in *. lia.
      * right. repeat split; try reflexivity.
        -- cbn. exact Hf.
        -- cbn [List.length]. lia.
        -- cbn. rewrite <- app_assoc. reflexivity.
    + (* the attempt succeeded: return at once *)
      exists (if 0 <? timeout t then set_timeout t 0 else t), tk0, None,
        {| world := w'; trace := trace st ++ [EvMicGetToken call] |}, [call].
      split; [reflexivity|]. cbn [trace].
      split; [rewrite mic_calls_app; reflexivity|].
      split; [constructor; [assumption|constructor]|].
      left. exists [], call. cbn. repeat split; lia.
Qed.

Lemma attempts_coerced t : attempts (coerced t) = Z.max 1 (attempts t).
Proof.
  unfold coerced. destruct (attempts t <? 1) eqn:H; cbn.
  - apply Z.ltb_lt in H. lia.
  - apply Z.ltb_ge in H. lia.
Qed.

Lemma mic_coerced t : mic (coerced t) = mic t.
Proof. unfold coerced. destruct (attempts t <? 1); reflexivity. Qed.

Lemma timeout_coerced t : timeout (coerced t) = timeout t.
Proof. unfold coerced. destruct (attempts t <? 1); reflexivity. Qed.

(** [GetToken] always returns; its new invocations and results are those
    of the loop started at index 0 on the coerced struct. *)
Lemma GetToken_spec t ctx opts st :
  exists t' tk err st' cs,
    GetToken clock mic_GetToken t ctx opts st = (Some (t', (tk, err)), st') /\
    mic_calls (trace st') = mic_calls (trace st) ++ cs /\
    Forall (genuine mic_GetToken (mic t)) cs /\
    loop_outcome (coerced t) 0 [] cs t' tk err.
Proof.
  unfold GetToken. fold (coerced t).
  destruct (GetToken_loop_spec ctx opts (Z.to_nat (attempts (coerced t)))
              (coerced t) 0 [] st)
    as (t' & tk & err & st' & cs & Hrun & Htr & Hg & Hout).
  { rewrite Z.sub_0_r. apply Nat.le_refl. }
  rewrite mic_coerced in Hg.
  exists t', tk, err, st', cs. auto.
Qed.

Lemma raw_errors_failed cs :
  forallb failed cs = true -> List.length (raw_errors cs) = List.length cs.
Proof.
  induction cs as [|c cs IH]; cbn; [reflexivity|].
  unfold failed at 1. destruct (call_err c); cbn; [|discriminate].
  intros H. f_equal. apply IH, H.
Qed.

(** Each failed invocation is paired, in order, with the error recorded
    for it. *)
Lemma recorded_errors_aligned (d : Z) cs :
  forallb failed cs = true ->
  Forall2 (fun c e => exists raw, call_err c = Some raw /\ e = recorded_error d raw)
    cs (map (recorded_error d) (raw_errors cs)).
Proof.
  induction cs as [|c cs IH]; cbn; [constructor|].
  unfold failed at 1. destruct (call_err c) as [raw|] eqn:Hc; cbn; [|discriminate].
  intros H. constructor; [exists raw; auto | apply IH, H].
Qed.

Lemma genuine_fails (m : ManagedIdentityCredential) c :
  (forall w x o, exists e, snd (fst (mic_GetToken m w x o)) = Some e) ->
  genuine mic_GetToken m c -> failed c = true.
Proof.
  intros Hfail [_ [w Hw]]. destruct (Hfail w (call_ctx c) (call_opts c)) as [e He].
  rewrite Hw in He. cbn in He. unfold failed. rewrite He. reflexivity.
Qed.

(** C2. If the underlying credential fails whenever it is invoked and
    [attempts] is N >= 1, [GetToken] invokes it exactly N times and returns
    the zero token with one joined error that holds the N per-attempt
    errors in the order of the attempts. *)
Theorem GetToken_exhausted t ctx opts st :
  1 <= attempts t ->
  (forall w c o, exists e, snd (fst (mic_GetToken (mic t) w c o)) = Some e) ->
  exists st' cs errs,
    GetToken clock mic_GetToken t ctx opts st =
      (Some (t, (AccessToken_zero, Some (JoinError errs))), st') /\
    mic_calls (trace st') = mic_calls (trace st) ++ cs /\
    Z.of_nat (List.length cs) = attempts t /\
    List.length errs = List.length cs /\
    Forall2 (fun c e => exists raw, call_err c = Some raw /\
                                    e = recorded_error (timeout t) raw) cs errs.
Proof.
  intros HN Hfail.
  destruct (GetToken_spec t ctx opts st)
    as (t' & tk & err & st' & cs & Hrun & Htr & Hg & Hout).
  assert (Hco : coerced t = t).
  { unfold coerced. replace (attempts t <? 1) with false; [reflexivity|].
    symmetry. apply Z.ltb_ge. lia. }
  rewrite Hco in Hout.
  destruct Hout as [(cs0 & c & -> & _ & Hok & _)|(Hf & Hlen & -> & -> & ->)].
  - exfalso. apply Forall_app in Hg. destruct Hg as [_ Hg].
    inversion Hg as [|? ? Hc _]; subst.
    pose proof (genuine_fails _ _ Hfail Hc) as Hc'.
    unfold failed in Hc'. rewrite Hok in Hc'. discriminate.
  - exists st', cs, (map (recorded_error (timeout t)) (raw_errors cs)).
    cbn [app] in Hrun.
    assert (Hlen' : List.length (raw_errors cs) = List.length cs)
      by (apply raw_errors_failed, Hf).
    split.
    { rewrite Hrun. unfold Join.
      destruct (map (recorded_error (timeout t)) (raw_errors cs)) eqn:Hm;
        [|reflexivity].
      apply (f_equal (@List.length _)) in Hm. rewrite length_map, Hlen' in Hm.
      cbn in Hm. lia. }
    split; [exact Htr|].
    split; [lia|].
    split; [rewrite length_map; exact Hlen'|].
    apply recorded_errors_aligned, Hf.
Qed.

(** The loop driven by a credential that fails [n] times and then
    succeeds, with at least [n + 1] iterations left. *)
Lemma GetToken_loop_succeeds ctx opts :
  forall n fuel t i errs st,
    succeeds_after mic_GetToken (mic t) n (world st) ->
    Z.of_nat n < attempts t - i ->
    (n < fuel)%nat ->
    exists st' cs0 c,
      GetToken_loop clock mic_GetToken fuel t ctx opts i errs st =
        (Some ((if 0 <? timeout t then set_timeout t 0 else t),
               (call_tk c, None)), st') /\
      mic_calls (trace st') = mic_calls (trace st) ++ cs0 ++ [c] /\
      List.length cs0 = n /\ forallb failed cs0 = true /\ call_err c = None.
Proof.
  induction n as [|n IH]; intros fuel t i errs st Hsucc Hleft Hfuel;
    (destruct fuel as [|fuel]; [lia|]);
    cbn [GetToken_loop];
    (replace (i <? attempts t) with true by (symmetry; apply Z.ltb_lt; lia));
    unfold bind at 1; rewrite tryGetToken_step;
    set (x := attempt_context (clock (world st)) ctx (timeout t));
    cbn [succeeds_after] in Hsucc; specialize (Hsucc x opts);
    destruct (mic_GetToken (mic t) (world st) x opts) as [[tk0 err0] w'];
    cbn [fst snd] in *.
  - subst err0. cbn [option_map].
    exists {| world := w';
              trace := trace st ++ [EvMicGetToken (mkMicCall (mic t) x opts tk0 None)] |},
      [], (mkMicCall (mic t) x opts tk0 None).
    cbn [trace]. rewrite mic_calls_app. cbn. auto.
  - destruct Hsucc as [[e ->] Hnext]. cbn [option_map].
    unfold bind at 1, emit at 1. cbn [world trace].
    set (call := mkMicCall (mic t) x opts tk0 (Some e)).
    destruct (IH fuel t (i + 1) (errs ++ [recorded_error (timeout t) e])
                {| world := w';
                   trace := (trace st ++ [EvMicGetToken call]) ++
                            [EvLogAttemptFailed (recorded_error (timeout t) e)
                               (i + 1) (attempts t)] |})
      as (st' & cs0 & c & Hrun & Htr & Hlen & Hf & Hok);
      [exact Hnext | lia | lia |].
    exists st', (call :: cs0), c.
    split; [exact Hrun|].
    split.
    { rewrite Htr. cbn [trace]. rewrite !mic_calls_app. cbn.
      rewrite app_nil_r, <- app_assoc. reflexivity. }
    cbn. auto.
Qed.

(** C3. If the underlying credential fails on the first k-1 invocations
    and succeeds on the k-th, with 1 <= k <= attempts, [GetToken] invokes
    it exactly k times and returns a nil error with the token of the k-th
    invocation. *)
Theorem GetToken_succeeds_on_kth t ctx opts st (k : nat) :
  (1 <= k)%nat ->
  Z.of_nat k <= attempts t ->
  succeeds_after mic_GetToken (mic t) (k - 1) (world st) ->
  exists t' st' cs0 c,
    GetToken clock mic_GetToken t ctx opts st = (Some (t', (call_tk c, None)), st') /\
    mic_calls (trace st') = mic_calls (trace st) ++ cs0 ++ [c] /\
    List.length (cs0 ++ [c]) = k /\
    forallb failed cs0 = true /\
    call_err c = None.
Proof.
  intros Hk HkN Hsucc.
  assert (Hco : coerced t = t).
  { unfold coerced. replace (attempts t <? 1) with false; [reflexivity|].
    symmetry. apply Z.ltb_ge. lia. }
  unfold GetToken. fold (coerced t). rewrite Hco.
  destruct (GetToken_loop_succeeds ctx opts (k - 1) (Z.to_nat (attempts t)) t 0 [] st)
    as (st' & cs0 & c & Hrun & Htr & Hlen & Hf & Hok); [exact Hsucc | lia | lia |].
  exists (if 0 <? timeout t then set_timeout t 0 else t), st', cs0, c.
  split; [exact Hrun|].
  split; [exact Htr|].
  split; [rewrite length_app; cbn; lia|].
  auto.
Qed.

(** The fields of the struct after a run of the loop. *)
Lemma loop_outcome_fields t i errs cs t' tk err :
  loop_outcome t i errs cs t' tk err ->
  mic t' = mic t /\ attempts t' = attempts t /\
  (timeout t' = timeout t \/ timeout t' = 0).
Proof.
  intros [(cs0 & c & _ & _ & _ & _ & _ & _ & ->)|(_ & _ & _ & _ & ->)];
    [destruct (0 <? timeout t)|]; cbn; auto.
Qed.

(** C5 (as amended). [GetToken] leaves the underlying credential alone,
    leaves [timeout] unchanged or sets it to 0, and replaces [attempts] by
    [max 1 attempts]: [attempts] is written when it was below 1 and is
    unchanged otherwise. *)
Theorem GetToken_frame t ctx opts st :
  exists t' res st',
    GetToken clock mic_GetToken t ctx opts st = (Some (t', res), st') /\
    mic t' = mic t /\
    attempts t' = Z.max 1 (attempts t) /\
    (timeout t' = timeout t \/ timeout t' = 0).
Proof.
  destruct (GetToken_spec t ctx opts st)
    as (t' & tk & err & st' & cs & Hrun & _ & _ & Hout).
  exists t', (tk, err), st'. split; [exact Hrun|].
  apply loop_outcome_fields in Hout.
  rewrite mic_coerced, attempts_coerced, timeout_coerced in Hout. exact Hout.
Qed.

(** C6. Whatever [attempts] holds, zero and negative values included,
    [GetToken] returns, the struct it leaves has [attempts] at least 1 and
    the underlying credential was invoked at least once. *)
Theorem GetToken_invokes_at_least_once t ctx opts st :
  exists t' res st' c cs,
    GetToken clock mic_GetToken t ctx opts st = (Some (t', res), st') /\
    1 <= attempts t' /\
    mic_calls (trace st') = mic_calls (trace st) ++ c :: cs.
Proof.
  destruct (GetToken_spec t ctx opts st)
    as (t' & tk & err & st' & cs & Hrun & Htr & _ & Hout).
  pose proof (loop_outcome_fields _ _ _ _ _ _ _ Hout) as (_ & Hatt & _).
  rewrite attempts_coerced in Hatt.
  assert (Hne : (0 < List.length cs)%nat).
  { destruct Hout as [(cs0 & c & -> & _)|(_ & Hlen & _)].
    - rewrite length_app. cbn. lia.
    - rewrite attempts_coerced in Hlen. lia. }
  destruct cs as [|c cs]; [cbn in Hne; lia|].
  exists t', (tk, err), st', c, cs.
  split; [exact Hrun|]. split; [lia | exact Htr].
Qed.

Lemma new_calls_app st st' cs :
  mic_calls (trace st') = mic_calls (trace st) ++ cs -> new_calls st st' = cs.
Proof.
  intros H. unfold new_calls. rewrite H, skipn_app, Nat.sub_diag, skipn_all.
  reflexivity.
Qed.

(** C7 (as amended). An authentication failure is retried like any other
    failure: when an invocation fails with an [AuthenticationFailedError]
    that is not a timeout and fewer than [max 1 attempts] invocations have
    been made, the same [GetToken] call invokes the underlying credential
    again. *)
Theorem GetToken_retries_authentication_failure t ctx opts st r st' i c e :
  GetToken clock mic_GetToken t ctx opts st = (Some r, st') ->
  nth_error (new_calls st st') i = Some c ->
  call_err c = Some e ->
  As_AuthenticationFailedError e = true ->
  is_timeout_failure e = false ->
  Z.of_nat (S i) < Z.max 1 (attempts t) ->
  exists c', nth_error (new_calls st st') (S i) = Some c'.
Proof.
  intros Hrun Hi He _ _ Hleft.
  destruct (GetToken_spec t ctx opts st)
    as (t' & tk & err & st2 & cs & Hrun2 & Htr & _ & Hout).
  rewrite Hrun in Hrun2. injection Hrun2 as _ <-.
  rewrite (new_calls_app _ _ _ Htr) in *.
  assert (Hlen : (S i < List.length cs)%nat).
  { destruct Hout as [(cs0 & c1 & -> & _ & Hok & _)|(_ & Hlen & _)].
    - rewrite length_app. cbn.
      destruct (Nat.lt_ge_cases i (List.length cs0)) as [Hlt|Hge]; [lia|].
      exfalso. rewrite nth_error_app2 in Hi by exact Hge.
      destruct (i - List.length cs0)%nat as [|j]; cbn in Hi.
      + injection Hi as <-. congruence.
      + destruct j; discriminate.
    - rewrite attempts_coerced in Hlen. lia. }
  destruct (nth_error cs (S i)) as [c'|] eqn:Hn; [eauto|].
  apply nth_error_None in Hn. lia.
Qed.

(** C8. With a positive timeout, an attempt whose underlying error is an
    authentication failure carrying a deadline-exceeded message is
    reported as the credential-unavailable error (which is no
    [AuthenticationFailedError]); every other underlying error is reported
    unchanged. *)
Theorem tryGetToken_reclassifies_timeout t ctx opts st t' tk err st' :
  0 < timeout t ->
  tryGetToken clock mic_GetToken t ctx opts st = ((t', (tk, err)), st') ->
  exists c,
    mic_calls (trace st') = mic_calls (trace st) ++ [c] /\
    (forall e, call_err c = Some e -> is_timeout_failure e = true ->
       err = Some (CredentialUnavailableError "managed identity request timed out") /\
       option_map As_AuthenticationFailedError err = Some false) /\
    (forall e, call_err c = Some e -> is_timeout_failure e = false ->
       err = Some e).
Proof.
  intros Hpos Hrun. rewrite tryGetToken_step in Hrun.
  set (x := attempt_context (clock (world st)) ctx (timeout t)) in *.
  destruct (mic_GetToken (mic t) (world st) x opts) as [[tk0 err0] w'].
  cbn [fst snd] in Hrun. injection Hrun as _ _ <- <-.
  exists (mkMicCall (mic t) x opts tk0 err0). cbn [trace call_err].
  split; [rewrite mic_calls_app; reflexivity|].
  assert (Hb : (0 <? timeout t) = true) by (apply Z.ltb_lt; exact Hpos).
  split; intros e -> Hcls; cbn [option_map]; unfold recorded_error;
    rewrite Hb, Hcls; cbn; auto.
Qed.

(** With a timeout of 0 or less the context handed to the underlying
    credential is not the caller's: unless the caller's deadline is sooner,
    its deadline is [now + timeout], a time that has already passed, and
    the context is done. *)
Lemma attempt_context_nonpositive now ctx d :
  d <= 0 ->
  attempt_context now ctx d = WithDeadline now ctx (now + d).
Proof.
  intros Hd. unfold attempt_context, WithTimeout.
  replace (0 <? d) with false by (symmetry; apply Z.ltb_ge; exact Hd).
  reflexivity.
Qed.

Lemma attempt_context_no_caller_deadline now ctx d :
  d <= 0 -> Deadline ctx = None ->
  Deadline (attempt_context now ctx d) = Some (now + d) /\
  (Err ctx = None -> Err (attempt_context now ctx d) = Some DeadlineExceeded).
Proof.
  intros Hd Hnone. rewrite attempt_context_nonpositive by exact Hd.
  unfold WithDeadline. rewrite Hnone. cbn. split; [reflexivity|].
  intros ->. replace (now + d - now <=? 0) with true; [reflexivity|].
  symmetry. apply Z.leb_le. lia.
Qed.

(** With a timeout of 0 or less and a caller without deadline, the one
    invocation of an attempt runs under the deadline [now + timeout]. *)
Lemma tryGetToken_nonpositive_timeout t ctx opts st :
  timeout t <= 0 -> Deadline ctx = None ->
  exists c,
    mic_calls (trace (snd (tryGetToken clock mic_GetToken t ctx opts st))) =
      mic_calls (trace st) ++ [c] /\
    Deadline (call_ctx c) = Some (clock (world st) + timeout t).
Proof.
  intros Hd Hnone. rewrite tryGetToken_step. cbn [snd trace].
  eexists. split; [rewrite mic_calls_app; reflexivity|]. cbn [call_ctx].
  apply attempt_context_no_caller_deadline; assumption.
Qed.

(* ------------------------------------------------------------------ *)
(** *** The chain *)

Lemma run_resolvers_length (opts : Resolvers) : forall w,
  List.length (fst (run_resolvers opts w)) = List.length opts.
Proof.
  induction opts as [|fn rest IH]; intros w; cbn; [reflexivity|].
  destruct (fn w) as [r w']. specialize (IH w').
  destruct (run_resolvers rest w') as [rs w'']. cbn in *. f_equal. exact IH.
Qed.

Lemma BuildChainedToken_range_spec (opts : Resolvers) : forall index chain st,
  BuildChainedToken_range index opts chain st =
    (chain ++ resolved (fst (run_resolvers opts (world st))),
     {| world := snd (run_resolvers opts (world st));
        trace := trace st ++
                 resolver_events index (fst (run_resolvers opts (world st))) |}).
Proof.
  induction opts as [|fn rest IH]; intros index chain st; cbn.
  - unfold ret. rewrite !app_nil_r. destruct st; reflexivity.
  - unfold bind, call_resolver.
    destruct (fn (world st)) as [[cred err] w'].
    rewrite IH. cbn [world trace].
    destruct (run_resolvers rest w') as [rs w'']. cbn [fst snd resolved flat_map].
    rewrite <- app_assoc. cbn [resolver_events fst snd app].
    destruct err; cbn [app]; rewrite <- ?app_assoc; reflexivity.
Qed.

(** C4. [BuildChainedToken] calls every resolver once, first to last; the
    constructor of the chain receives the credentials of the resolvers
    that returned a nil error, in their order; what [BuildChainedToken]
    returns is the constructor's result on that list, so a resolver's
    error reaches no returned value. *)
Theorem BuildChainedToken_spec (opts : Resolvers) st :
  let rs := fst (run_resolvers opts (world st)) in
  BuildChainedToken NewChainedTokenCredential opts st =
    (NewChainedTokenCredential (resolved rs),
     {| world := snd (run_resolvers opts (world st));
        trace := trace st ++ resolver_events 0 rs ++
                 [EvNewChainedTokenCredential (resolved rs)] |}) /\
  List.length rs = List.length opts.
Proof.
  cbv zeta. split; [|apply run_resolvers_length].
  unfold BuildChainedToken, bind. rewrite BuildChainedToken_range_spec.
  unfold call_NewChainedTokenCredential, bind, emit, ret. cbn.
  rewrite <- app_assoc. reflexivity.
Qed.

Lemma resolved_all_failed (opts : Resolvers) : forall w,
  Forall always_fails opts ->
  resolved (fst (run_resolvers opts w)) = [] /\
  forall index,
    Forall (fun ev => exists i cred e, ev = EvResolver i cred (Some e))
      (resolver_events index (fst (run_resolvers opts w))).
Proof.
  induction opts as [|fn rest IH]; intros w Hall; cbn.
  - split; [reflexivity | constructor].
  - inversion Hall as [|? ? Hfn Hrest]; subst.
    destruct (Hfn w) as [e He].
    destruct (fn w) as [[cred err] w']. cbn in He. subst err.
    destruct (IH w' Hrest) as [Hres Hev].
    destruct (run_resolvers rest w') as [rs w'']. cbn in *.
    split; [exact Hres|].
    intros index. constructor; [eauto | apply Hev].
Qed.

Lemma resolver_events_length
    (rs : list (TokenCredential ManagedIdentityCredential AzCredential
                  ChainedTokenCredential * error)) : forall index,
  List.length (resolver_events index rs) = List.length rs.
Proof. induction rs as [|r rs IH]; intros index; cbn; [|rewrite IH]; reflexivity. Qed.

(** C10. When every resolver fails (also when there is none) the
    constructor of the chain is called with the empty list and
    [BuildChainedToken] returns what it returns; the trace holds the
    failed resolver calls followed by that one constructor call. *)
Theorem BuildChainedToken_all_fail (opts : Resolvers) st :
  Forall always_fails opts ->
  exists st' evs,
    BuildChainedToken NewChainedTokenCredential opts st = (NewChainedTokenCredential [], st') /\
    trace st' = trace st ++ evs ++ [EvNewChainedTokenCredential []] /\
    List.length evs = List.length opts /\
    Forall (fun ev => exists i cred e, ev = EvResolver i cred (Some e)) evs.
Proof.
  intros Hall.
  destruct (resolved_all_failed opts (world st) Hall) as [Hres Hev].
  unfold BuildChainedToken, bind. rewrite BuildChainedToken_range_spec.
  unfold call_NewChainedTokenCredential, bind, emit, ret. cbn.
  rewrite Hres. cbn.
  eexists. exists (resolver_events 0 (fst (run_resolvers opts (world st)))).
  split; [reflexivity|]. cbn [trace].
  split; [rewrite <- app_assoc; reflexivity|].
  split; [rewrite resolver_events_length; apply run_resolvers_length | apply Hev].
Qed.

(* ------------------------------------------------------------------ *)
(** *** Materialisation *)

(** C9. For a descriptor of kind pkcs12 whose secret does not parse,
    [GetTokenFromCredential] returns a nil credential and the parse error
    wrapped in a message that contains the private key path; the only
    call made is the one to [ParseCertificates], and the world is left as
    it was. *)
Theorem GetTokenFromCredential_parse_failure credential tenantID clientID st e :
  vault.Type_ credential = vault.CredentialType_pkcs12 ->
  snd (ParseCertificates (vault.Secret credential)
         (list_byte_of_string (vault.Password credential))) = Some e ->
  let err :=
    WithMessage e ("could not parse provided certificate at "
                   ++ vault.PrivateKeyPath credential) in
  GetTokenFromCredential ClientOptions_zero NewAzureCLICredential
    NewEnvironmentCredential NewWorkloadIdentityCredential
    NewManagedIdentityCredential NewChainedTokenCredential ParseCertificates
    NewClientCertificateCredential NewClientSecretCredential
    (Some credential) tenantID clientID st =
    ((NilCredential, Some err),
     {| world := world st;
        trace := trace st ++
                 [EvParseCertificates (vault.Secret credential)
                    (list_byte_of_string (vault.Password credential))] |}) /\
  strings.Contains (Error_ err) (vault.PrivateKeyPath credential) = true.
Proof.
  intros Hkind Hparse. cbv zeta. split.
  - unfold GetTokenFromCredential. rewrite Hkind.
    unfold call_ParseCertificates, bind, emit, ret.
    destruct (ParseCertificates _ _) as [[certs key] err]. cbn in Hparse.
    subst err. reflexivity.
  - cbn [Error_]. rewrite <- append_assoc. apply Contains_append.
Qed.

(* ------------------------------------------------------------------ *)
(** *** Further facts about the retry wrapper *)

(** X1. [GetToken] stops at the first success and never exceeds its
    budget: it makes between 1 and [max 1 attempts] invocations, all but
    the last of them failed, and it returns a nil error with the token of
    the last invocation when that one succeeded, the zero token and the
    joined errors of all [max 1 attempts] invocations otherwise. *)
Theorem GetToken_stops_at_first_success t ctx opts st :
  exists t' tk err st' cs,
    GetToken clock mic_GetToken t ctx opts st = (Some (t', (tk, err)), st') /\
    mic_calls (trace st') = mic_calls (trace st) ++ cs /\
    1 <= Z.of_nat (List.length cs) <= Z.max 1 (attempts t) /\
    forallb failed (removelast cs) = true /\
    match err with
    | None =>
        exists c, cs = removelast cs ++ [c] /\ call_err c = None /\ tk = call_tk c
    | Some e =>
        forallb failed cs = true /\
        Z.of_nat (List.length cs) = Z.max 1 (attempts t) /\
        tk = AccessToken_zero /\
        e = JoinError (map (recorded_error (timeout t)) (raw_errors cs))
    end.
Proof.
  destruct (GetToken_spec t ctx opts st)
    as (t' & tk & err & st' & cs & Hrun & Htr & _ & Hout).
  exists t', tk, err, st', cs. split; [exact Hrun|]. split; [exact Htr|].
  destruct Hout as [(cs0 & c & -> & Hf & Hok & -> & -> & Hlen & _)
                   |(Hf & Hlen & -> & -> & _)];
    rewrite ?attempts_coerced, ?timeout_coerced, ?Z.sub_0_r in *.
  - rewrite removelast_last. rewrite length_app in *. cbn in *.
    split; [lia|]. split; [exact Hf|].
    exists c. auto.
  - assert (Hne : cs <> []) by (intros ->; cbn in Hlen; lia).
    split; [lia|]. split.
    { destruct (exists_last Hne) as (cs0 & c & ->).
      rewrite removelast_last. rewrite forallb_app in Hf.
      apply andb_prop in Hf. apply Hf. }
    cbn [app].
    pose proof (raw_errors_failed cs Hf) as Hraw.
    destruct (map (recorded_error (timeout t)) (raw_errors cs)) eqn:Hm.
    { apply (f_equal (@List.length _)) in Hm. rewrite length_map, Hraw in Hm.
      destruct cs; [congruence | discriminate]. }
    cbn [Join]. repeat split; try assumption; lia.
Qed.

(** X2. Only a success relaxes the timeout: when [GetToken] returns a nil
    error the struct's timeout is 0 if it was positive and unchanged
    otherwise; when it returns an error the timeout is what it was. *)
Theorem GetToken_timeout_relaxed_only_by_success t ctx opts st :
  exists t' tk err st',
    GetToken clock mic_GetToken t ctx opts st = (Some (t', (tk, err)), st') /\
    match err with
    | None => timeout t' = (if 0 <? timeout t then 0 else timeout t)
    | Some _ => timeout t' = timeout t
    end.
Proof.
  destruct (GetToken_spec t ctx opts st)
    as (t' & tk & err & st' & cs & Hrun & _ & _ & Hout).
  exists t', tk, err, st'. split; [exact Hrun|].
  destruct Hout as [(cs0 & c & _ & _ & _ & _ & -> & _ & ->)
                   |(Hf & Hlen & _ & -> & ->)];
    rewrite ?attempts_coerced, ?timeout_coerced, ?Z.sub_0_r in *.
  - destruct (0 <? timeout t); cbn; first [reflexivity | apply timeout_coerced].
  - cbn [app].
    destruct (Join _) eqn:HJ; [first [reflexivity | apply timeout_coerced]|].
    exfalso. unfold Join in HJ.
    destruct (map (recorded_error (timeout t)) (raw_errors cs)) eqn:Hm;
      [|discriminate].
    apply (f_equal (@List.length _)) in Hm.
    rewrite length_map, (raw_errors_failed cs Hf) in Hm. cbn in Hm. lia.
Qed.

Lemma mic_calls_attempt_events d n cs : forall i,
  mic_calls (attempt_events d n i cs
             : list (Event ManagedIdentityCredential AzCredential
                       ChainedTokenCredential)) = cs.
Proof.
  induction cs as [|c cs IH]; intros i; cbn [attempt_events]; [reflexivity|].
  change (mic_calls (EvMicGetToken c :: ?l)) with (c :: mic_calls l).
  destruct (call_err c); [change (mic_calls (EvLogAttemptFailed ?e ?a ?b :: ?l))
                            with (mic_calls l)|]; rewrite IH; reflexivity.
Qed.

(** The trace of the loop, event by event, and the shape of every
    invocation in it. *)
Lemma GetToken_loop_trace ctx opts :
  forall fuel t i errs st,
    (Z.to_nat (attempts t - i) <= fuel)%nat ->
    exists cs,
      trace (snd (GetToken_loop clock mic_GetToken fuel t ctx opts i errs st)) =
        trace st ++ attempt_events (timeout t) (attempts t) i cs ++
        (if forallb failed cs then [EvLogMaxRetries (attempts t)] else []) /\
      Forall (call_shape clock t ctx opts) cs.
Proof.
  induction fuel as [|fuel IH]; intros t i errs st Hfuel; cbn [GetToken_loop].
  - replace (i <? attempts t) with false by (symmetry; apply Z.ltb_ge; lia).
    exists []. split; [reflexivity | constructor].
  - destruct (i <? attempts t) eqn:Hi.
    2:{ exists []. split; [reflexivity | constructor]. }
    apply Z.ltb_lt in Hi.
    unfold bind at 1. rewrite tryGetToken_step.
    set (x := attempt_context (clock (world st)) ctx (timeout t)).
    destruct (mic_GetToken (mic t) (world st) x opts) as [[tk0 err0] w'].
    cbn [fst snd option_map].
    set (call := mkMicCall (mic t) x opts tk0 err0).
    assert (Hshape : call_shape clock t ctx opts call).
    { split; [reflexivity|]. split; [reflexivity|]. exists (world st). reflexivity. }
    destruct err0 as [e|].
    + unfold bind at 1, emit at 1. cbn [world trace].
      destruct (IH t (i + 1) (errs ++ [recorded_error (timeout t) e])
                  {| world := w';
                     trace := (trace st ++ [EvMicGetToken call]) ++
                              [EvLogAttemptFailed (recorded_error (timeout t) e)
                                 (i + 1) (attempts t)] |})
        as (cs & Htr & Hcs); [lia|].
      exists (call :: cs). split; [|constructor; assumption].
      etransitivity; [exact Htr|]. cbn [trace attempt_events forallb].
      change (call_err call) with (Some e). change (failed call) with true.
      cbn [andb]. rewrite <- !app_assoc. reflexivity.
    + exists [call]. split; [|constructor; [assumption|constructor]].
      cbn [snd trace attempt_events forallb].
      change (call_err call) with (@None Error). change (failed call) with false.
      cbn [andb]. rewrite app_nil_r. reflexivity.
Qed.

(** The same for [GetToken]; the invocations are those of [new_calls]. *)
Lemma GetToken_trace t ctx opts st :
  let st' := snd (GetToken clock mic_GetToken t ctx opts st) in
  let n := Z.max 1 (attempts t) in
  trace st' =
    trace st ++ attempt_events (timeout t) n 0 (new_calls st st') ++
    (if forallb failed (new_calls st st') then [EvLogMaxRetries n] else []) /\
  mic_calls (trace st') = mic_calls (trace st) ++ new_calls st st' /\
  Forall (call_shape clock t ctx opts) (new_calls st st').
Proof.
  cbv zeta. unfold GetToken. fold (coerced t).
  destruct (GetToken_loop_trace ctx opts (Z.to_nat (attempts (coerced t)))
              (coerced t) 0 [] st) as (cs & Htr & Hcs).
  { rewrite Z.sub_0_r. apply Nat.le_refl. }
  set (run := GetToken_loop clock mic_GetToken (Z.to_nat (attempts (coerced t)))
                (coerced t) ctx opts 0 [] st) in *.
  rewrite attempts_coerced, timeout_coerced in Htr.
  assert (Hcalls : mic_calls (trace (snd run)) = mic_calls (trace st) ++ cs).
  { rewrite Htr, !mic_calls_app, mic_calls_attempt_events.
    destruct (forallb failed cs); cbn; rewrite app_nil_r; reflexivity. }
  rewrite (new_calls_app _ _ _ Hcalls).
  split; [exact Htr|]. split; [exact Hcalls|].
  revert Hcs. apply Forall_impl. intros c (Hm & Ho & Hc).
  rewrite mic_coerced in Hm. rewrite timeout_coerced in Hc. repeat split; assumption.
Qed.

(** X3. [GetToken] calls no collaborator but the underlying credential
    and the logger: the trace gains, in order, each invocation followed by
    the log line of its failure (with the attempt counted from 1 and the
    coerced [attempts]), and ends with the line for exhausted retries
    exactly when the call returns an error. *)
Theorem GetToken_trace_exact t ctx opts st :
  exists t' tk err st',
    GetToken clock mic_GetToken t ctx opts st = (Some (t', (tk, err)), st') /\
    trace st' =
      trace st ++
      attempt_events (timeout t) (Z.max 1 (attempts t)) 0 (new_calls st st') ++
      match err with
      | Some _ => [EvLogMaxRetries (Z.max 1 (attempts t))]
      | None => []
      end.
Proof.
  destruct (GetToken_spec t ctx opts st)
    as (t' & tk & err & st' & cs & Hrun & Htr & _ & Hout).
  exists t', tk, err, st'. split; [exact Hrun|].
  pose proof (GetToken_trace t ctx opts st) as (Hex & _ & _). cbv zeta in Hex.
  rewrite Hrun in Hex. cbn [snd] in Hex. rewrite Hex at 1.
  rewrite (new_calls_app _ _ _ Htr). do 2 f_equal.
  destruct Hout as [(cs0 & c & -> & _ & Hok & _ & -> & _)
                   |(Hf & Hlen & _ & -> & _)].
  - rewrite forallb_app. cbn. unfold failed at 2. rewrite Hok.
    rewrite andb_false_r. reflexivity.
  - rewrite Hf. cbn [app].
    destruct (map _ (raw_errors cs)) eqn:Hm; [|reflexivity].
    apply (f_equal (@List.length _)) in Hm.
    rewrite length_map, (raw_errors_failed cs Hf) in Hm.
    rewrite attempts_coerced in Hlen. cbn in Hm. lia.
Qed.

(** X4. The request options and the credential of the struct reach every
    invocation unchanged. *)
Theorem GetToken_passes_options_through t ctx opts st :
  Forall (fun c => call_mic c = mic t /\ call_opts c = opts)
    (new_calls st (snd (GetToken clock mic_GetToken t ctx opts st))).
Proof.
  pose proof (GetToken_trace t ctx opts st) as (_ & _ & Hshape). cbv zeta in Hshape.
  revert Hshape. apply Forall_impl. intros c (Hm & Ho & _). auto.
Qed.





(** X7. A struct whose [attempts] is 1 or less makes a single attempt:
    one invocation, whose token is returned if it succeeded and whose
    error, as reported by the attempt, is returned joined alone if not. *)
Theorem GetToken_single_attempt t ctx opts st :
  attempts t <= 1 ->
  exists t' st' c,
    mic_calls (trace st') = mic_calls (trace st) ++ [c] /\
    GetToken clock mic_GetToken t ctx opts st =
      (Some (t',
             match call_err c with
             | None => (call_tk c, None)
             | Some e =>
                 (AccessToken_zero,
                  Some (JoinError [recorded_error (timeout t) e]))
             end), st').
Proof.
  intros Hone.
  destruct (GetToken_spec t ctx opts st)
    as (t' & tk & err & st' & cs & Hrun & Htr & _ & Hout).
  assert (Hlen : List.length cs = 1%nat).
  { destruct Hout as [(cs0 & c & -> & _ & _ & _ & _ & Hlen & _)|(_ & Hlen & _)];
      rewrite attempts_coerced in Hlen; [rewrite length_app in *; cbn in *|]; lia. }
  destruct cs as [|c [|c' cs]]; try discriminate.
  exists t', st', c. split; [exact Htr|]. rewrite Hrun.
  destruct Hout as [(cs0 & c1 & Heq & _ & Hok & -> & -> & _)
                   |(Hf & _ & -> & -> & _)].
  - destruct cs0 as [|? [|? ?]]; try discriminate. injection Heq as ->.
    rewrite Hok. reflexivity.
  - cbn in Hf. unfold failed in Hf. rewrite timeout_coerced.
    unfold raw_errors. cbn [flat_map].
    destruct (call_err c); [reflexivity | discriminate].
Qed.

(* ------------------------------------------------------------------ *)
(** *** Further facts about the chain and the materialisation *)

Lemma append_empty_r (s : string) : (s ++ EmptyString)%string = s.
Proof. induction s as [|a s IH]; cbn; [|rewrite IH]; reflexivity. Qed.

(** A string contains each of its suffixes. *)
Lemma Contains_suffix (a s : string) : strings.Contains (a ++ s)%string s = true.
Proof.
  pose proof (Contains_append a s EmptyString) as H.
  rewrite append_empty_r in H. exact H.
Qed.

Lemma run_resolvers_static
    (creds : list (TokenCredential ManagedIdentityCredential AzCredential
                     ChainedTokenCredential)) (w : W) :
  run_resolvers (map WithStaticToken creds) w = (map (fun c => (c, None)) creds, w).
Proof.
  induction creds as [|c creds IH]; cbn; [reflexivity|].
  rewrite IH. reflexivity.
Qed.

Lemma resolved_all_nil_error
    (creds : list (TokenCredential ManagedIdentityCredential AzCredential
                     ChainedTokenCredential)) :
  resolved (map (fun c => (c, @None Error)) creds) = creds.
Proof.
  unfold resolved.
  induction creds as [|c creds IH]; cbn; [reflexivity | f_equal; exact IH].
Qed.

(** X8. A chain built from static tokens only hands all of them, in
    their order, to the constructor of the chain and leaves the world as
    it was. *)
Theorem BuildChainedToken_static_tokens
    (creds : list (TokenCredential ManagedIdentityCredential AzCredential
                     ChainedTokenCredential)) st :
  BuildChainedToken NewChainedTokenCredential (map WithStaticToken creds) st =
    (NewChainedTokenCredential creds,
     {| world := world st;
        trace := trace st ++
                 resolver_events 0 (map (fun c => (c, None)) creds) ++
                 [EvNewChainedTokenCredential creds] |}).
Proof.
  unfold BuildChainedToken, bind. rewrite BuildChainedToken_range_spec.
  rewrite run_resolvers_static. cbn [fst snd app].
  rewrite resolved_all_nil_error.
  unfold call_NewChainedTokenCredential, bind, emit, ret. cbn.
  rewrite <- app_assoc. reflexivity.
Qed.

(** X9. The default chain asks its four sources in the order Azure CLI,
    environment, managed identity, workload identity, each in the world
    the one before left; when all four can be built the chain is made of
    them in that order, the managed identity credential wrapped for
    retries with a timeout of 5 seconds and 3 attempts.  Absent options
    count as the zero options. *)
Theorem GetDefaultChainedToken_order options st c1 w1 c2 w2 m w3 c4 w4 :
  let o := match options with
           | None => DefaultAzureCredentialOptions_zero ClientOptions_zero
           | Some o => o
           end in
  NewAzureCLICredential {| cli_AdditionallyAllowedTenants := ["*"] |} (world st)
    = ((c1, None), w1) ->
  NewEnvironmentCredential {| env_ClientOptions := def_ClientOptions o |} w1
    = ((c2, None), w2) ->
  NewManagedIdentityCredential {| mi_ClientOptions := def_ClientOptions o |} w2
    = (inl m, w3) ->
  NewWorkloadIdentityCredential
    {| wi_ClientOptions := def_ClientOptions o;
       wi_DisableInstanceDiscovery := def_DisableInstanceDiscovery o;
       wi_TenantID := def_TenantID o |} w3
    = ((c4, None), w4) ->
  let wrapped := Retryable (mkRetryable m 3 5000000000) in
  GetDefaultChainedToken ClientOptions_zero NewAzureCLICredential
    NewEnvironmentCredential NewWorkloadIdentityCredential
    NewManagedIdentityCredential NewChainedTokenCredential options st =
    (NewChainedTokenCredential [Azidentity c1; Azidentity c2; wrapped; Azidentity c4],
     {| world := w4;
        trace := trace st ++
                 [ EvResolver 0 (Azidentity c1) None;
                   EvResolver 1 (Azidentity c2) None;
                   EvResolver 2 wrapped None;
                   EvResolver 3 (Azidentity c4) None;
                   EvNewChainedTokenCredential
                     [Azidentity c1; Azidentity c2; wrapped; Azidentity c4] ] |}).
Proof.
  cbv zeta. intros H1 H2 H3 H4.
  unfold GetDefaultChainedToken. cbv zeta.
  set (o := match options with
            | None => DefaultAzureCredentialOptions_zero ClientOptions_zero
            | Some o => o
            end) in *.
  match goal with
  | |- BuildChainedToken _ ?l _ = _ => set (sources := l)
  end.
  assert (Hrun : run_resolvers sources (world st) =
                 ([ (Azidentity c1, None); (Azidentity c2, None);
                    (Retryable (mkRetryable m 3 5000000000), None);
                    (Azidentity c4, None) ], w4)).
  { subst sources. cbn [run_resolvers].
    unfold WithCliCredentials. rewrite H1.
    unfold WithEnvCredentials. rewrite H2.
    unfold WithRetryableManagedIdentityCredentials. rewrite H3.
    unfold WithWorkloadIdentityCredentials. rewrite H4. reflexivity. }
  unfold BuildChainedToken, bind. rewrite BuildChainedToken_range_spec, Hrun.
  unfold call_NewChainedTokenCredential, bind, emit, ret. cbn.
  rewrite <- app_assoc. reflexivity.
Qed.

(** X10. [GetTokenFromCredential] returns the nil interface value exactly
    when it returns an error, whatever the descriptor. *)
Theorem GetTokenFromCredential_nil_iff_error credential tenantID clientID st :
  let res := fst (GetTokenFromCredential ClientOptions_zero NewAzureCLICredential
                    NewEnvironmentCredential NewWorkloadIdentityCredential
                    NewManagedIdentityCredential NewChainedTokenCredential
                    ParseCertificates NewClientCertificateCredential
                    NewClientSecretCredential credential tenantID clientID st) in
  match snd res with
  | Some _ => fst res = NilCredential
  | None => exists p, fst res = Azidentity p \/ exists q, fst res = Chained q
  end.
Proof.
  cbv zeta. unfold GetTokenFromCredential.
  destruct credential as [credential|].
  - destruct (vault.Type_ credential).
    + unfold call_ParseCertificates, call_NewClientCertificateCredential,
        bind, emit, ret.
      destruct (ParseCertificates _ _) as [[certs key] [e|]]; cbn; [reflexivity|].
      destruct (NewClientCertificateCredential _ _ _ _) as [p [e|]]; cbn;
        [reflexivity | eauto].
    + unfold call_NewClientSecretCredential, bind, emit, ret.
      destruct (NewClientSecretCredential _ _ _) as [p [e|]]; cbn;
        [reflexivity | eauto].
    + reflexivity.
  - unfold bind, emit, ret.
    destruct (GetDefaultChainedToken _ _ _ _ _ _ _ _) as [[chain [e|]] st'];
      cbn; [reflexivity|].
    exists None. right. eauto.
Qed.

(** X11. With a descriptor at hand no resolver runs and the world is not
    touched: a certificate descriptor leads to one parse and, if the bundle
    parses, one construction from the given tenant and client; a password
    descriptor to one construction from tenant, client and the secret read
    as a string; any other kind to no call at all. *)
Theorem GetTokenFromCredential_descriptor_calls credential tenantID clientID st :
  let run := GetTokenFromCredential ClientOptions_zero NewAzureCLICredential
               NewEnvironmentCredential NewWorkloadIdentityCredential
               NewManagedIdentityCredential NewChainedTokenCredential
               ParseCertificates NewClientCertificateCredential
               NewClientSecretCredential (Some credential) tenantID clientID st in
  let secret := vault.Secret credential in
  let password := list_byte_of_string (vault.Password credential) in
  world (snd run) = world st /\
  trace (snd run) = trace st ++
    match vault.Type_ credential with
    | vault.CredentialType_pkcs12 =>
        EvParseCertificates secret password ::
        match snd (ParseCertificates secret password) with
        | Some _ => []
        | None => [EvNewClientCertificateCredential tenantID clientID]
        end
    | vault.CredentialType_password =>
        [EvNewClientSecretCredential tenantID clientID (string_of_list_byte secret)]
    | vault.CredentialType_other _ => []
    end.
Proof.
  cbv zeta. unfold GetTokenFromCredential.
  destruct (vault.Type_ credential).
  - unfold call_ParseCertificates, call_NewClientCertificateCredential,
      bind, emit, ret.
    destruct (ParseCertificates _ _) as [[certs key] [e|]]; cbn;
      [split; reflexivity|].
    destruct (NewClientCertificateCredential _ _ _ _) as [p [e|]]; cbn;
      rewrite <- app_assoc; split; reflexivity.
  - unfold call_NewClientSecretCredential, bind, emit, ret.
    destruct (NewClientSecretCredential _ _ _) as [p [e|]]; cbn; split; reflexivity.
  - cbn. rewrite app_nil_r. split; reflexivity.
Qed.

(** X12. A descriptor of a kind other than certificate and password is
    refused with a plain error whose message contains the name of the
    kind; the state is unchanged. *)
Theorem GetTokenFromCredential_unsupported_kind credential tenantID clientID st name :
  vault.Type_ credential = vault.CredentialType_other name ->
  exists msg,
    GetTokenFromCredential ClientOptions_zero NewAzureCLICredential
      NewEnvironmentCredential NewWorkloadIdentityCredential
      NewManagedIdentityCredential NewChainedTokenCredential
      ParseCertificates NewClientCertificateCredential
      NewClientSecretCredential (Some credential) tenantID clientID st =
      ((NilCredential, Some (New msg)), st) /\
    strings.Contains msg name = true.
Proof.
  intros Hkind. unfold GetTokenFromCredential. rewrite Hkind.
  eexists. split; [reflexivity|]. cbn [vault.CredentialType_String].
  apply Contains_suffix.
Qed.

(** X13. For a password descriptor the result is that of the one
    construction: its credential with a nil error, or a nil credential and
    its error wrapped in a message that still contains the error's text. *)
Theorem GetTokenFromCredential_password credential tenantID clientID st :
  vault.Type_ credential = vault.CredentialType_password ->
  let r := NewClientSecretCredential tenantID clientID
             (string_of_list_byte (vault.Secret credential)) in
  fst (GetTokenFromCredential ClientOptions_zero NewAzureCLICredential
         NewEnvironmentCredential NewWorkloadIdentityCredential
         NewManagedIdentityCredential NewChainedTokenCredential
         ParseCertificates NewClientCertificateCredential
         NewClientSecretCredential (Some credential) tenantID clientID st) =
    match snd r with
    | None => (Azidentity (fst r), None)
    | Some e =>
        (NilCredential,
         Some (WithMessage e "error creating credentials from a secret"))
    end /\
  forall e, snd r = Some e ->
    strings.Contains
      (Error_ (WithMessage e "error creating credentials from a secret"))
      (Error_ e) = true.
Proof.
  intros Hkind. cbv zeta. unfold GetTokenFromCredential. rewrite Hkind.
  unfold call_NewClientSecretCredential, bind, emit, ret. split.
  - destruct (NewClientSecretCredential _ _ _) as [p [e|]]; reflexivity.
  - intros e _. cbn [Error_]. rewrite append_assoc. apply Contains_suffix.
Qed.



(** X15. For a certificate descriptor whose bundle parses, the result is
    that of the one construction from the tenant, the client and the
    parsed certificates and key: its credential with a nil error, or a nil
    credential and its error wrapped. *)
Theorem GetTokenFromCredential_certificate credential tenantID clientID st certs key :
  vault.Type_ credential = vault.CredentialType_pkcs12 ->
  ParseCertificates (vault.Secret credential)
    (list_byte_of_string (vault.Password credential)) = (certs, key, None) ->
  let r := NewClientCertificateCredential tenantID clientID certs key in
  fst (GetTokenFromCredential ClientOptions_zero NewAzureCLICredential
         NewEnvironmentCredential NewWorkloadIdentityCredential
         NewManagedIdentityCredential NewChainedTokenCredential
         ParseCertificates NewClientCertificateCredential
         NewClientSecretCredential (Some credential) tenantID clientID st) =
    match snd r with
    | None => (Azidentity (fst r), None)
    | Some e =>
        (NilCredential,
         Some (WithMessage e "error creating credentials from a certificate"))
    end.
Proof.
  intros Hkind Hparse. cbv zeta. unfold GetTokenFromCredential. rewrite Hkind.
  unfold call_ParseCertificates, call_NewClientCertificateCredential,
    bind, emit, ret.
  rewrite Hparse.
  destruct (NewClientCertificateCredential _ _ _ _) as [p [e|]]; reflexivity.
Qed.

End Facts.

(* ------------------------------------------------------------------ *)
(** *** The code on concrete inputs *)

(** C1 (the code departs from the claim).  A credential with timeout 5s
    answers its first [GetToken] and is left with timeout 0.  On the next
    [GetToken], called with [context.Background()], which has no deadline,
    the underlying credential is handed contexts whose deadline is the
    current time and which are already done; all three attempts fail. *)
Theorem GetToken_relaxed_timeout_expired_context :
  fst first_run = Some (relaxed3, (sim_token, None)) /\
  Deadline Background = None /\
  map call_ctx (new_calls (snd first_run) (snd second_run)) =
    [ {| Deadline := Some 1001; Err := Some DeadlineExceeded |};
      {| Deadline := Some 1002; Err := Some DeadlineExceeded |};
      {| Deadline := Some 1003; Err := Some DeadlineExceeded |} ] /\
  option_map (fun r => fst (snd r)) (fst second_run) = Some AccessToken_zero.
Proof. repeat split; vm_compute; reflexivity. Qed.

Lemma always_rejected_fails w c o :
  exists e, snd (fst (sim_GetToken always_rejected w c o)) = Some e.
Proof. eexists. reflexivity. Qed.

Lemma GetToken_exhausted_witness :
  1 <= attempts rejected3 /\
  exists st' cs errs,
    rejected_run = (Some (rejected3, (AccessToken_zero, Some (JoinError errs))), st') /\
    mic_calls (trace st') = mic_calls (trace sim_start) ++ cs /\
    Z.of_nat (List.length cs) = attempts rejected3 /\
    List.length errs = List.length cs /\
    Forall2 (fun c e => exists raw, call_err c = Some raw /\
                                    e = recorded_error (timeout rejected3) raw) cs errs.
Proof.
  split; [cbn; lia|].
  apply (GetToken_exhausted sim_now sim_GetToken
           rejected3 Background sim_opts sim_start);
    [cbn; lia | exact always_rejected_fails].
Defined.

Lemma third_time_lucky_succeeds_after :
  succeeds_after sim_GetToken third_time_lucky 2 (world sim_start).
Proof.
  cbn. intros c o. split; [eexists; reflexivity|].
  intros c' o'. split; [eexists; reflexivity|].
  intros c2 o2. reflexivity.
Qed.

Lemma GetToken_succeeds_on_kth_witness :
  exists t' st' cs0 c,
    GetToken sim_now sim_GetToken lucky3 Background sim_opts sim_start =
      (Some (t', (call_tk c, None)), st') /\
    mic_calls (trace st') = mic_calls (trace sim_start) ++ cs0 ++ [c] /\
    List.length (cs0 ++ [c]) = 3%nat /\
    forallb failed cs0 = true /\
    call_err c = None.
Proof.
  apply (GetToken_succeeds_on_kth sim_now sim_GetToken
           lucky3 Background sim_opts sim_start 3);
    [lia | cbn; lia | exact third_time_lucky_succeeds_after].
Defined.

(** C5 (the claim as stated fails).  A struct built with [attempts] 0
    comes back from [GetToken] with [attempts] 1. *)
Lemma GetToken_writes_attempts :
  attempts unset_attempts = 0 /\
  option_map (fun r => attempts (fst r))
    (fst (GetToken sim_now sim_GetToken unset_attempts Background sim_opts sim_start))
  = Some 1.
Proof. split; vm_compute; reflexivity. Qed.

(** C7 (the claim as stated fails).  The provider rejects the credentials
    on the first attempt, with an error that is no timeout; the underlying
    credential is invoked two more times all the same. *)
Lemma GetToken_retries_rejected_credentials :
  As_AuthenticationFailedError sim_rejected = true /\
  is_timeout_failure sim_rejected = false /\
  map call_err (new_calls sim_start (snd rejected_run)) =
    [Some sim_rejected; Some sim_rejected; Some sim_rejected].
Proof. repeat split; vm_compute; reflexivity. Qed.

Lemma GetToken_retries_authentication_failure_witness :
  exists c', nth_error (new_calls sim_start (snd rejected_run)) 1 = Some c'.
Proof.
  apply (GetToken_retries_authentication_failure sim_now sim_GetToken
           rejected3 Background sim_opts sim_start
           (rejected3,
            (AccessToken_zero,
             Some (JoinError [sim_rejected; sim_rejected; sim_rejected])))
           (snd rejected_run) 0
           (mkMicCall always_rejected
              {| Deadline := Some (1000 + sim_timeout); Err := None |}
              sim_opts AccessToken_zero (Some sim_rejected))
           sim_rejected);
    [reflexivity | reflexivity | reflexivity | reflexivity | reflexivity
    | cbn; lia].
Defined.

(** The test looks for an [AuthenticationFailedError]: the bare
    [context.DeadlineExceeded] is not a timeout failure in its sense. *)
Example is_timeout_failure_examples :
  is_timeout_failure sim_timed_out = true /\
  is_timeout_failure sim_rejected = false /\
  is_timeout_failure DeadlineExceeded = false /\
  is_timeout_failure (WithMessage sim_timed_out "managed identity") = true.
Proof. repeat split; reflexivity. Qed.

Lemma tryGetToken_reclassifies_timeout_witness :
  0 < timeout timing_out3 /\
  exists c,
    mic_calls (trace (snd timing_out_try)) = mic_calls (trace sim_start) ++ [c] /\
    (forall e, call_err c = Some e -> is_timeout_failure e = true ->
       snd (snd (fst timing_out_try)) =
         Some (CredentialUnavailableError "managed identity request timed out") /\
       option_map As_AuthenticationFailedError (snd (snd (fst timing_out_try)))
         = Some false) /\
    (forall e, call_err c = Some e -> is_timeout_failure e = false ->
       snd (snd (fst timing_out_try)) = Some e).
Proof.
  split; [cbn; lia|].
  apply (tryGetToken_reclassifies_timeout sim_now sim_GetToken
           timing_out3 Background sim_opts sim_start
           (fst (fst timing_out_try)) (fst (snd (fst timing_out_try))));
    [cbn; lia | reflexivity].
Defined.

(** The chain built from [mixed_resolvers] holds the two static tokens, in
    their order, and every resolver was called once. *)
Example BuildChainedToken_mixed :
  BuildChainedToken sim_NewChainedTokenCredential mixed_resolvers sim_start =
    ((Some 2%nat, None),
     {| world := world sim_start;
        trace :=
          [ EvResolver 0 NilCredential (Some (New "Azure CLI not found on path"));
            EvResolver 1 (Azidentity (Some "env")) None;
            EvResolver 2 NilCredential (Some (New "no managed identity endpoint"));
            EvResolver 3 (Azidentity (Some "workload")) None;
            EvResolver 4 NilCredential (Some (New "no federated token file"));
            EvNewChainedTokenCredential
              [Azidentity (Some "env"); Azidentity (Some "workload")] ] |}).
Proof. reflexivity. Qed.

Lemma failing_resolvers_fail : Forall always_fails failing_resolvers.
Proof. repeat constructor; intros w; eexists; reflexivity. Qed.

Lemma BuildChainedToken_all_fail_witness :
  exists st' evs,
    BuildChainedToken sim_NewChainedTokenCredential failing_resolvers sim_start =
      (sim_NewChainedTokenCredential [], st') /\
    trace st' = trace sim_start ++ evs ++ [EvNewChainedTokenCredential []] /\
    List.length evs = List.length failing_resolvers /\
    Forall (fun ev => exists i cred e, ev = EvResolver i cred (Some e)) evs.
Proof.
  apply (BuildChainedToken_all_fail
           sim_NewChainedTokenCredential failing_resolvers sim_start
           failing_resolvers_fail).
Defined.

Lemma GetTokenFromCredential_parse_failure_witness :
  let err :=
    WithMessage (New "pkcs12: error reading P12 data")
      "could not parse provided certificate at /etc/kopexa/sp.pfx" in
  sim_GetTokenFromCredential (Some corrupted_bundle) "tenant" "client" sim_start =
    ((NilCredential, Some err),
     {| world := world sim_start;
        trace := [EvParseCertificates [Byte.x00; Byte.xff; Byte.x13]
                    (list_byte_of_string "changeit")] |}) /\
  strings.Contains (Error_ err) "/etc/kopexa/sp.pfx" = true.
Proof.
  apply (GetTokenFromCredential_parse_failure tt
           (sim_unavailable "Azure CLI not found on path")
           (sim_unavailable "missing environment variable AZURE_TENANT_ID")
           (sim_unavailable "no federated token file")
           sim_NewManagedIdentityCredential
           sim_NewChainedTokenCredential
           sim_ParseCertificates
           sim_NewClientCertificateCredential
           sim_NewClientSecretCredential
           corrupted_bundle "tenant" "client" sim_start
           (New "pkcs12: error reading P12 data"));
    reflexivity.
Defined.

(* ------------------------------------------------------------------ *)
(** *** The further facts on concrete inputs *)



Lemma GetToken_single_attempt_witness :
  attempts unset_attempts <= 1 /\
  exists t' st' c,
    mic_calls (trace st') = mic_calls (trace sim_start) ++ [c] /\
    GetToken sim_now sim_GetToken unset_attempts Background sim_opts sim_start =
      (Some (t',
             match call_err c with
             | None => (call_tk c, None)
             | Some e =>
                 (AccessToken_zero,
                  Some (JoinError [recorded_error (timeout unset_attempts) e]))
             end), st').
Proof.
  split; [cbn; lia|].
  apply (GetToken_single_attempt sim_now sim_GetToken
           unset_attempts Background sim_opts sim_start).
  cbn; lia.
Defined.

Lemma GetDefaultChainedToken_order_witness :
  let wrapped := Retryable (mkRetryable reachable_endpoint 3 5000000000) in
  GetDefaultChainedToken tt (sim_available "cli") (sim_available "env")
    (sim_available "workload") sim_NewManagedIdentityCredential
    sim_NewChainedTokenCredential None sim_start =
    (sim_NewChainedTokenCredential
       [Azidentity (Some "cli"); Azidentity (Some "env"); wrapped;
        Azidentity (Some "workload")],
     {| world := {| sim_now := 1003; sim_count := 0 |};
        trace := trace sim_start ++
                 [ EvResolver 0 (Azidentity (Some "cli")) None;
                   EvResolver 1 (Azidentity (Some "env")) None;
                   EvResolver 2 wrapped None;
                   EvResolver 3 (Azidentity (Some "workload")) None;
                   EvNewChainedTokenCredential
                     [Azidentity (Some "cli"); Azidentity (Some "env"); wrapped;
                      Azidentity (Some "workload")] ] |}).
Proof.
  apply (GetDefaultChainedToken_order tt (sim_available "cli") (sim_available "env")
           (sim_available "workload") sim_NewManagedIdentityCredential
           sim_NewChainedTokenCredential None sim_start
           (Some "cli") {| sim_now := 1001; sim_count := 0 |}
           (Some "env") {| sim_now := 1002; sim_count := 0 |}
           reachable_endpoint {| sim_now := 1002; sim_count := 0 |}
           (Some "workload") {| sim_now := 1003; sim_count := 0 |});
    reflexivity.
Defined.

Lemma GetTokenFromCredential_unsupported_kind_witness :
  exists msg,
    sim_GetTokenFromCredential (Some ssh_agent_descriptor) "tenant" "client" sim_start =
      ((NilCredential, Some (New msg)), sim_start) /\
    strings.Contains msg "ssh_agent" = true.
Proof.
  apply (GetTokenFromCredential_unsupported_kind tt
           (sim_unavailable "Azure CLI not found on path")
           (sim_unavailable "missing environment variable AZURE_TENANT_ID")
           (sim_unavailable "no federated token file")
           sim_NewManagedIdentityCredential sim_NewChainedTokenCredential
           sim_ParseCertificates sim_NewClientCertificateCredential
           sim_NewClientSecretCredential
           ssh_agent_descriptor "tenant" "client" sim_start "ssh_agent").
  reflexivity.
Defined.

Lemma GetTokenFromCredential_password_witness :
  fst (sim_GetTokenFromCredential (Some password_descriptor) "tenant" "client"
         sim_start) = (Azidentity (Some "secret"), None).
Proof.
  apply (GetTokenFromCredential_password tt
           (sim_unavailable "Azure CLI not found on path")
           (sim_unavailable "missing environment variable AZURE_TENANT_ID")
           (sim_unavailable "no federated token file")
           sim_NewManagedIdentityCredential sim_NewChainedTokenCredential
           sim_ParseCertificates sim_NewClientCertificateCredential
           sim_NewClientSecretCredential
           password_descriptor "tenant" "client" sim_start).
  reflexivity.
Defined.

Lemma GetTokenFromCredential_certificate_witness :
  fst (sim_GetTokenFromCredential (Some parsable_bundle) "tenant" "client"
         sim_start) = (Azidentity (Some "certificate"), None).
Proof.
  apply (GetTokenFromCredential_certificate tt
           (sim_unavailable "Azure CLI not found on path")
           (sim_unavailable "missing environment variable AZURE_TENANT_ID")
           (sim_unavailable "no federated token file")
           sim_NewManagedIdentityCredential sim_NewChainedTokenCredential
           sim_ParseCertificates sim_NewClientCertificateCredential
           sim_NewClientSecretCredential
           parsable_bundle "tenant" "client" sim_start tt tt);
    reflexivity.
Defined.

End azauth.

(* ------------------------------------------------------------------ *)
(** ** Facts about package [multierr] *)

Module multierr_facts.

Import multierr.

(* ------------------------------------------------------------------ *)
(** *** [Add], [IsEmpty], [Filter], [Wrap] *)

Lemma Add_Errors (err : list error) : forall m,
  Errors_ (Add m err) = Errors_ m ++ filter (fun x => negb (is_nil x)) err.
Proof.
  induction err as [|e err IH]; intros m; cbn [Add filter].
  - rewrite app_nil_r. reflexivity.
  - rewrite IH. destruct e; cbn [is_nil negb Errors_].
    + rewrite <- app_assoc. reflexivity.
    + reflexivity.
Qed.

Lemma Errors_ext (a b : Errors) : Errors_ a = Errors_ b -> a = b.
Proof. destruct a, b; cbn. intros ->. reflexivity. Qed.

(** X16. [Add] appends the non-nil arguments, in their order, and nothing
    else; what the collection held stays in front. *)
Theorem Add_appends_non_nil (m : Errors) (err : list error) :
  Errors_ (Add m err) = Errors_ m ++ filter (fun x => negb (is_nil x)) err.
Proof. apply Add_Errors. Qed.

(** X17. Two calls of [Add] amount to one call with the arguments of both. *)
Theorem Add_compose (m : Errors) (a b : list error) :
  Add (Add m a) b = Add m (a ++ b).
Proof.
  apply Errors_ext. rewrite !Add_Errors, filter_app, app_assoc. reflexivity.
Qed.

(** X18. A collection built from the zero value by calls of [Add] alone
    never holds a nil error. *)
Theorem Add_never_stores_nil (calls : list (list error)) :
  Forall (fun x => is_nil x = false) (Errors_ (fold_left Add calls Errors_zero)).
Proof.
  assert (H : forall m, Forall (fun x => is_nil x = false) (Errors_ m) ->
              Forall (fun x => is_nil x = false) (Errors_ (fold_left Add calls m))).
  { induction calls as [|c calls IH]; intros m Hm; cbn [fold_left]; [exact Hm|].
    apply IH. rewrite Add_Errors. apply Forall_app. split; [exact Hm|].
    apply Forall_forall. intros x Hx. apply filter_In in Hx.
    destruct Hx as [_ Hx]. destruct x; [reflexivity | discriminate]. }
  apply H. constructor.
Qed.

(** X19. [IsEmpty] holds of the nil receiver, and of a collection built
    from the zero value by one [Add] exactly when every argument was nil. *)
Theorem IsEmpty_after_Add (err : list error) :
  IsEmpty None = true /\
  IsEmpty (Some (Add Errors_zero err)) = forallb is_nil err.
Proof.
  split; [reflexivity|]. unfold IsEmpty. rewrite Add_Errors. cbn [Errors_zero Errors_ app].
  induction err as [|e err IH]; [reflexivity|].
  destruct e; cbn [filter is_nil negb forallb andb List.length]; [reflexivity | exact IH].
Qed.

Lemma Filter_range_Errors (f : error -> bool) (errs : list error) : forall res,
  Errors_ (Filter_range f errs res) =
    Errors_ res ++ filter (fun e => negb (f e)) errs.
Proof.
  induction errs as [|cur errs IH]; intros res; cbn [Filter_range filter].
  - rewrite app_nil_r. reflexivity.
  - rewrite IH. destruct (negb (f cur)); cbn [Errors_].
    + rewrite <- app_assoc. reflexivity.
    + reflexivity.
Qed.

(** X20. [Filter] returns the errors the predicate rejects, in their
    order; the errors it accepts are the ones removed. *)
Theorem Filter_keeps_unmatched (m : Errors) (f : error -> bool) :
  Errors_ (Filter m f) = filter (fun e => negb (f e)) (Errors_ m).
Proof. unfold Filter. rewrite Filter_range_Errors. reflexivity. Qed.

(** X21. Filtering twice removes what either predicate accepts. *)
Theorem Filter_compose (m : Errors) (f g : error -> bool) :
  Filter (Filter m f) g = Filter m (fun e => f e || g e).
Proof.
  apply Errors_ext. unfold Filter. rewrite !Filter_range_Errors.
  cbn [Errors_zero Errors_ app].
  induction (Errors_ m) as [|e l IH]; [reflexivity|].
  cbn [filter]. destruct (f e); cbn [negb orb filter].
  - exact IH.
  - destruct (g e); cbn [negb]; [exact IH | f_equal; exact IH].
Qed.

(* ------------------------------------------------------------------ *)
(** *** [Error] *)

Lemma Itoa_one (n : nat) : Itoa n = "1" <-> n = 1%nat.
Proof.
  split; [|intros ->; reflexivity].
  intros H. change "1" with (Itoa 1) in H. unfold Itoa in H.
  apply (f_equal DecimalString.NilEmpty.uint_of_string) in H.
  rewrite !DecimalString.NilEmpty.usu in H. injection H as H.
  apply (f_equal Nat.of_uint) in H.
  rewrite !DecimalNat.Unsigned.of_to in H. exact H.
Qed.

Lemma header_by_length (n : nat) :
  header n = if Nat.eqb n 1
             then ("1 error occurred:" ++ newline)%string
             else (Itoa n ++ " errors occurred:" ++ newline)%string.
Proof.
  unfold header. cbv zeta.
  destruct (String.eqb (Itoa n) "1") eqn:Hs.
  - apply String.eqb_eq, Itoa_one in Hs. subst n. reflexivity.
  - destruct (Nat.eqb n 1) eqn:Hn; [|reflexivity].
    apply Nat.eqb_eq in Hn. subst n. discriminate.
Qed.

Lemma Error_ErrorsPtr (errs : list error) :
  Error_ (ErrorsPtr errs) =
    match lines errs with
    | Some out => Some (header (List.length errs) ++ out)%string
    | None => None
    end.
Proof. reflexivity. Qed.

Lemma lines_printed (errs : list error) : forall msgs,
  map message errs = map Some msgs -> lines errs = Some (bullets msgs).
Proof.
  induction errs as [|x errs IH]; intros [|s msgs] H; try discriminate.
  - reflexivity.
  - cbn [map] in H. injection H as Hx Hrest.
    destruct x as [e|]; [|discriminate]. cbn [message] in Hx.
    cbn [lines bullets]. rewrite Hx, (IH _ Hrest). reflexivity.
Qed.

Lemma printable_messages (errs : list error) :
  printable errs <-> exists msgs, map message errs = map Some msgs.
Proof.
  unfold printable. split.
  - induction 1 as [|x errs (e & s & -> & He) _ (msgs & IH)].
    + exists []. reflexivity.
    + exists (s :: msgs). cbn. rewrite He, IH. reflexivity.
  - intros (msgs & H). revert msgs H.
    induction errs as [|x errs IH]; intros msgs H; [constructor|].
    destruct msgs as [|s msgs]; [discriminate|]. cbn [map] in H.
    injection H as Hx Hrest. constructor; [|eapply IH; exact Hrest].
    destruct x as [e|]; [|discriminate]. eauto.
Qed.

Lemma lines_some_printable (errs : list error) : forall out,
  lines errs = Some out -> printable errs.
Proof.
  induction errs as [|x errs IH]; intros out H; [constructor|].
  cbn [lines] in H. destruct x as [e|]; [|discriminate].
  destruct (Error_ e) as [s|] eqn:He; [|discriminate].
  destruct (lines errs) as [rest|] eqn:Hl; [|discriminate].
  constructor; [eauto | eapply IH; reflexivity].
Qed.

(** X22. For a collection whose errors have the messages [msgs], [Error]
    writes a header and one bulleted line per message, in order; the
    header reads "1 error occurred:" when the collection has exactly one
    error and "<n> errors occurred:" for every other length, 0 included. *)
Theorem Errors_Error_format (m : Errors) (msgs : list string) :
  map message (Errors_ m) = map Some msgs ->
  Errors_Error m =
    Some ((if Nat.eqb (List.length msgs) 1
           then "1 error occurred:" ++ newline
           else Itoa (List.length msgs) ++ " errors occurred:" ++ newline)
          ++ bullets msgs)%string.
Proof.
  intros H. unfold Errors_Error. rewrite Error_ErrorsPtr, (lines_printed _ _ H).
  rewrite header_by_length.
  replace (List.length (Errors_ m)) with (List.length msgs); [reflexivity|].
  apply (f_equal (@List.length _)) in H. rewrite !length_map in H. auto.
Qed.

(** X23. [Error] panics exactly when the slice holds a nil error or an
    error whose own [Error] panics; otherwise it returns a string. *)
Theorem Errors_Error_defined_iff_printable (m : Errors) :
  (exists s, Errors_Error m = Some s) <-> printable (Errors_ m).
Proof.
  unfold Errors_Error. rewrite Error_ErrorsPtr. split.
  - intros (s & H). destruct (lines (Errors_ m)) as [out|] eqn:Hl; [|discriminate].
    eapply lines_some_printable. exact Hl.
  - intros H. apply printable_messages in H. destruct H as (msgs & H).
    rewrite (lines_printed _ _ H). eauto.
Qed.

(* ------------------------------------------------------------------ *)
(** *** [Wrap] *)

(** X24. [Wrap] gives nil for nil; a non-nil error is wrapped in a
    [withMessage] that keeps it as its cause and whose message is the
    given one, a colon and the message of the cause, which it therefore
    still contains. *)
Theorem Wrap_keeps_cause (message : string) :
  Wrap None message = None /\
  forall e s, Error_ e = Some s ->
    Wrap (Some e) message = Some (withMessage e message) /\
    Error_ (withMessage e message) = Some (message ++ ": " ++ s)%string /\
    strings.Contains (message ++ ": " ++ s)%string s = true /\
    String.prefix message (message ++ ": " ++ s)%string = true.
Proof.
  split; [reflexivity|]. intros e s He.
  split; [reflexivity|]. split; [cbn [Error_]; rewrite He; reflexivity|].
  split.
  - rewrite azauth.append_assoc. apply azauth.Contains_suffix.
  - apply azauth.prefix_append.
Qed.

Lemma exists_last_or_nil {A : Type} (l : list A) :
  l = [] \/ exists l' x, l = l' ++ [x].
Proof.
  destruct l as [|a l]; [left; reflexivity|]. right.
  assert (H : a :: l <> []) by discriminate.
  destruct (exists_last H) as (l' & x & ->). eauto.
Qed.

(* ------------------------------------------------------------------ *)
(** *** [Deduplicate] *)

Lemma track_set_keys (k : string) (v : Error) (track : Track) (x : string) :
  In x (map fst (track_set k v track)) <-> x = k \/ In x (map fst track).
Proof.
  induction track as [|[k0 v0] track IH]; cbn [track_set map fst In].
  - intuition.
  - destruct (String.eqb k k0) eqn:Hk; cbn [map fst In].
    + apply String.eqb_eq in Hk. subst k0. intuition.
    + rewrite IH. intuition.
Qed.

Lemma track_set_NoDup (k : string) (v : Error) (track : Track) :
  NoDup (map fst track) -> NoDup (map fst (track_set k v track)).
Proof.
  induction track as [|[k0 v0] track IH]; cbn [track_set map fst]; intros H.
  - constructor; [intros [] | constructor].
  - inversion H as [|? ? Hnot Hrest]; subst.
    destruct (String.eqb k k0) eqn:Hk; cbn [map fst].
    + apply String.eqb_eq in Hk. subst k0. constructor; assumption.
    + apply String.eqb_neq in Hk. constructor; [|apply IH, Hrest].
      rewrite track_set_keys. intros [->|Hin]; [apply Hk; reflexivity | auto].
Qed.

Lemma track_set_In (k : string) (v : Error) (track : Track) (k' : string) (e' : Error) :
  NoDup (map fst track) ->
  In (k', e') (track_set k v track) <->
  (k' = k /\ e' = v) \/ (k' <> k /\ In (k', e') track).
Proof.
  induction track as [|[k0 v0] track IH]; cbn [track_set map fst In]; intros H.
  - split.
    + intros [Heq|[]]. injection Heq; intros; subst. auto.
    + intros [[-> ->]|[_ []]]. auto.
  - inversion H as [|? ? Hnot Hrest]; subst.
    destruct (String.eqb k k0) eqn:Hk; cbn [In].
    + apply String.eqb_eq in Hk. subst k0. split.
      * intros [Heq|Hin];
          [left; injection Heq; intros; subst; split; reflexivity|].
        right. split; [|auto]. intros ->. apply Hnot.
        apply (in_map fst) in Hin. exact Hin.
      * intros [[-> ->]|[Hne [Heq|Hin]]]; auto.
        injection Heq as -> _. exfalso. apply Hne. reflexivity.
    + apply String.eqb_neq in Hk. rewrite (IH Hrest). split.
      * intros [Heq|[[-> ->]|[Hne Hin]]]; auto.
        injection Heq; intros; subst. right. split; [congruence | auto].
      * intros [[-> ->]|[Hne [Heq|Hin]]]; auto.
Qed.

Lemma last_with_message_snoc (seen : list error) (e : Error) (k : string)
    (e' : Error) (k' : string) :
  Error_ e = Some k ->
  last_with_message (seen ++ [Some e]) e' k' <->
  (k' = k /\ e' = e) \/ (k' <> k /\ last_with_message seen e' k').
Proof.
  intros He. unfold last_with_message. split.
  - intros (l1 & l2 & Heq & He' & Hlast).
    destruct (exists_last_or_nil l2) as [->|(l2' & x & ->)].
    + apply app_inj_tail in Heq. destruct Heq as [_ Heq]. injection Heq as ->.
      left. split; [congruence | reflexivity].
    + change (l1 ++ Some e' :: l2' ++ [x]) with (l1 ++ (Some e' :: l2') ++ [x]) in Heq.
      rewrite app_assoc in Heq. apply app_inj_tail in Heq.
      destruct Heq as [-> <-].
      apply Forall_app in Hlast. destruct Hlast as [Hl2 Hx].
      inversion Hx as [|? ? Hne _]; subst. cbn [message] in Hne.
      right. split; [congruence|]. exists l1, l2'. auto.
  - intros [[-> ->]|(Hne & l1 & l2 & -> & He' & Hlast)].
    + exists seen, []. auto.
    + exists l1, (l2 ++ [Some e]). rewrite <- app_assoc. split; [reflexivity|].
      split; [exact He'|]. apply Forall_app. split; [exact Hlast|].
      constructor; [|constructor]. cbn [message]. congruence.
Qed.

Lemma track_inv_nil : track_inv [] [].
Proof.
  split; [constructor|]. intros k e. split; [intros []|].
  intros (l1 & l2 & H & _). destruct l1; discriminate.
Qed.

Lemma track_inv_step (seen : list error) (track : Track) (e : Error) (k : string) :
  Error_ e = Some k -> track_inv seen track ->
  track_inv (seen ++ [Some e]) (track_set k e track).
Proof.
  intros He [Hnd Hin]. split; [apply track_set_NoDup, Hnd|].
  intros k' e'. rewrite (track_set_In _ _ _ _ _ Hnd).
  rewrite (last_with_message_snoc _ _ _ _ _ He), Hin. reflexivity.
Qed.

(** The first loop of [Deduplicate] does not panic on printable errors
    and keeps [track_inv]. *)
Lemma Deduplicate_track_inv (errs : list error) : forall seen track,
  printable errs -> track_inv seen track ->
  exists track',
    Deduplicate_track errs track = Some track' /\ track_inv (seen ++ errs) track'.
Proof.
  induction errs as [|x errs IH]; intros seen track Hp Hinv; cbn [Deduplicate_track].
  - exists track. rewrite app_nil_r. auto.
  - inversion Hp as [|? ? (e & k & -> & He) Hrest]; subst. rewrite He.
    destruct (IH (seen ++ [Some e]) (track_set k e track) Hrest
                (track_inv_step _ _ _ _ He Hinv)) as (track' & Hrun & Hinv').
    exists track'. rewrite <- app_assoc in Hinv'. auto.
Qed.

Lemma NoDup_map_Some {A : Type} (l : list A) : NoDup l -> NoDup (map Some l).
Proof.
  induction 1 as [|a l Hnot _ IH]; cbn; constructor; [|exact IH].
  rewrite in_map_iff. intros (b & Hb & Hin). injection Hb as ->. auto.
Qed.

(** X25. On a non-empty collection of printable errors [Deduplicate]
    returns a collection, in the order the map yields, that holds for
    each message occurring in the input exactly one error: the last one
    with that message.  No two errors of the result share a message. *)
Theorem Deduplicate_keeps_last_of_each_message (order : MapOrder) (m : Errors) :
  printable (Errors_ m) -> Errors_ m <> [] ->
  exists res,
    Deduplicate order m = Some (Some (ErrorsPtr (map Some res))) /\
    NoDup (map Error_ res) /\
    forall e, In e res <-> exists k, last_with_message (Errors_ m) e k.
Proof.
  intros Hp Hne. unfold Deduplicate.
  destruct (Deduplicate_track_inv (Errors_ m) [] [] Hp track_inv_nil)
    as (track & Hrun & Hnd & Hin).
  cbn [app] in Hin.
  destruct (Errors_ m) as [|x errs] eqn:Herrs; [congruence|].
  rewrite Hrun. exists (map snd (range order track)).
  pose proof (range_permutes order track) as Hperm.
  split; [rewrite map_map; reflexivity|]. split.
  - rewrite map_map.
    rewrite (map_ext_in _ (fun kv => Some (fst kv))).
    + rewrite <- (map_map fst Some). apply NoDup_map_Some.
      apply (Permutation_NoDup (l := map fst track)); [|exact Hnd].
      apply Permutation_map, Permutation_sym, Hperm.
    + intros [k e] Hkv. cbn [fst snd].
      apply (Permutation_in _ Hperm), Hin in Hkv.
      destruct Hkv as (_ & _ & _ & He & _). exact He.
  - intros e. rewrite in_map_iff. split.
    + intros ([k e'] & Heq & Hkv). cbn [snd] in Heq. subst e'.
      exists k. apply Hin. apply (Permutation_in _ Hperm). exact Hkv.
    + intros (k & Hlast). exists (k, e). split; [reflexivity|].
      apply (Permutation_in _ (Permutation_sym Hperm)). apply Hin. exact Hlast.
Qed.

(** X26. [Deduplicate] returns the nil error exactly for the empty
    collection; what it returns otherwise is a collection, never a bare
    error out of the input. *)
Theorem Deduplicate_nil_iff_empty (order : MapOrder) (m : Errors) :
  (Deduplicate order m = Some None <-> IsEmpty (Some m) = true) /\
  forall e, Deduplicate order m = Some (Some e) -> exists errs, e = ErrorsPtr errs.
Proof.
  unfold Deduplicate, IsEmpty. destruct (Errors_ m) as [|x errs].
  - split; [split; reflexivity | discriminate].
  - destruct (Deduplicate_track (x :: errs) []) as [track|]; cbn [List.length Nat.eqb].
    + split; [split; discriminate|]. intros e H. injection H as <-. eauto.
    + split; [split; discriminate | discriminate].
Qed.

Lemma Deduplicate_track_same_message (k : string) (e : Error) (l : list error) :
  forall track,
    track = [] \/ (exists e0, track = [(k, e0)]) ->
    Forall (fun x => message x = Some k) l -> Error_ e = Some k ->
    Deduplicate_track (l ++ [Some e]) track = Some [(k, e)].
Proof.
  induction l as [|x l IH]; intros track Htrack Hall He; cbn [app Deduplicate_track].
  - rewrite He. destruct Htrack as [->|(e0 & ->)]; cbn [track_set];
      rewrite ?String.eqb_refl; reflexivity.
  - inversion Hall as [|? ? Hx Hrest]; subst.
    destruct x as [e1|]; [|discriminate]. cbn [message] in Hx. rewrite Hx.
    apply IH; [|exact Hrest|exact He]. right.
    destruct Htrack as [->|(e0 & ->)]; cbn [track_set];
      rewrite ?String.eqb_refl; eauto.
Qed.

(** X27. When all errors of a collection have the same message,
    [Deduplicate] returns a collection of one error, the last of the
    input, whatever the order of the map; it does not return that error
    itself. *)
Theorem Deduplicate_same_message (order : MapOrder) (m : Errors)
    (l : list error) (e : Error) (k : string) :
  Errors_ m = l ++ [Some e] ->
  Forall (fun x => message x = Some k) l ->
  Error_ e = Some k ->
  Deduplicate order m = Some (Some (ErrorsPtr [Some e])).
Proof.
  intros Hm Hall He. unfold Deduplicate. rewrite Hm.
  rewrite (Deduplicate_track_same_message k e l [] (or_introl eq_refl) Hall He).
  pose proof (range_permutes order [(k, e)]) as Hperm.
  apply Permutation_sym, Permutation_length_1_inv in Hperm. rewrite Hperm.
  destruct l; reflexivity.
Qed.

(* ------------------------------------------------------------------ *)
(** *** The code on the collections *)

(** The collection [mixed] printed, and deduplicated under two map
    orders: of the two errors with the message 1 the later one stays. *)
Example mixed_runs :
  Errors_Error mixed =
    Some ("3 errors occurred:" ++ newline ++
          tab ++ "* 1" ++ newline ++ tab ++ "* 2" ++ newline ++
          tab ++ "* 1" ++ newline)%string /\
  Deduplicate insertion_order mixed = Some (Some (ErrorsPtr [err1'; err2])) /\
  Deduplicate reverse_order mixed = Some (Some (ErrorsPtr [err2; err1'])).
Proof. repeat split; reflexivity. Qed.

Lemma Errors_Error_format_witness :
  Errors_Error mixed =
    Some ((if Nat.eqb (List.length ["1"; "2"; "1"]) 1
           then "1 error occurred:" ++ newline
           else Itoa (List.length ["1"; "2"; "1"]) ++ " errors occurred:" ++ newline)
          ++ bullets ["1"; "2"; "1"])%string.
Proof.
  apply (Errors_Error_format mixed ["1"; "2"; "1"]). reflexivity.
Defined.

Lemma mixed_printable : printable (Errors_ mixed).
Proof. repeat constructor; eexists; eexists; split; reflexivity. Qed.

Lemma mixed_not_empty : Errors_ mixed <> [].
Proof. discriminate. Qed.

Lemma Deduplicate_keeps_last_of_each_message_witness :
  exists res,
    Deduplicate reverse_order mixed = Some (Some (ErrorsPtr (map Some res))) /\
    NoDup (map Error_ res) /\
    forall e, In e res <-> exists k, last_with_message (Errors_ mixed) e k.
Proof.
  apply (Deduplicate_keeps_last_of_each_message reverse_order mixed
           mixed_printable mixed_not_empty).
Defined.

Lemma Deduplicate_same_message_witness :
  Deduplicate reverse_order ones =
    Some (Some (ErrorsPtr [Some (Foreign (AuthenticationFailedError "1"))])).
Proof.
  apply (Deduplicate_same_message reverse_order ones [err1]
           (Foreign (AuthenticationFailedError "1")) "1").
  - reflexivity.
  - repeat constructor.
  - reflexivity.
Defined.

End multierr_facts.
